(** * Verification of the XOR Cipher Lab core ([utils/cryptoUtils.ts])

    Shallow embedding of the byte-level utilities of the repository:
    [xorBuffer], the hex codec ([hexToUint8Array], [uint8ArrayToHex]),
    the UTF-8 text codec ([stringToUint8Array], [uint8ArrayToString]) and the
    base64 codec ([base64ToUint8Array], [uint8ArrayToBase64]).

    Data model.
    - A [Uint8Array] (and the bytes of an [ArrayBuffer]) is a [list Z] of
      values in [0, 256); storing a number into a [Uint8Array] applies
      ToUint8, written [to_uint8].
    - A JavaScript string is a [list Z] of UTF-16 code units, [js_string].
    - The browser primitives the code calls ([atob], [btoa], [TextEncoder],
      [TextDecoder], [parseInt], [Number.prototype.toString]) are embedded
      after their WHATWG / ECMAScript definitions. *)

From Stdlib Require Import ZArith Lia Bool String Ascii List.
Import ListNotations.
Open Scope Z_scope.

(** ** Data model *)

Definition Uint8Array := list Z.
Definition js_string := list Z.

(** A value that can be held by a [Uint8Array] cell. *)
Definition is_u8 (x : Z) : Prop := 0 <= x < 256.
Definition bytes_ok (b : Uint8Array) : Prop := Forall is_u8 b.

(** ToUint8: the conversion applied when a number is stored into a
    [Uint8Array] cell. *)
Definition to_uint8 (x : Z) : Z := x mod 256.

(** A JavaScript string literal written with ASCII characters. *)
Definition js (s : string) : js_string :=
  map (fun c => Z.of_nat (nat_of_ascii c)) (list_ascii_of_string s).

(** ** [xorBuffer]

<<
export const xorBuffer = (buffer: ArrayBuffer, key: Uint8Array): ArrayBuffer => {
  const input = new Uint8Array(buffer);
  const output = new Uint8Array(input.length);
  const keyLength = key.length;
  if (keyLength === 0) return buffer;
  for (let i = 0; i < input.length; i++) {
    output[i] = input[i] ^ key[i % keyLength];
  }
  return output.buffer;
};
>>
    The loop body at index [i] writes [output[i]]; [xor_loop key keyLength i
    input] produces the cells [i, i+1, ...] from the remaining input. *)

Fixpoint xor_loop (key : Uint8Array) (keyLength : nat) (i : nat)
  (input : Uint8Array) : Uint8Array :=
  match input with
  | [] => []
  | x :: rest =>
      to_uint8 (Z.lxor x (nth (i mod keyLength) key 0))
        :: xor_loop key keyLength (S i) rest
  end.

Definition xorBuffer (buffer : Uint8Array) (key : Uint8Array) : Uint8Array :=
  let keyLength := length key in
  if Nat.eqb keyLength 0 then buffer
  else xor_loop key keyLength 0 buffer.

(** ** ECMAScript string primitives used by the hex codec *)

(** Character classes, on UTF-16 code units. *)
Definition in_range (lo hi c : Z) : bool := (lo <=? c) && (c <=? hi).

(** The class [[0-9a-fA-F]] of the regular expressions of the source. *)
Definition is_hex_char (c : Z) : bool :=
  in_range 48 57 c || in_range 97 102 c || in_range 65 70 c.

(** LineTerminator: the code units that [.] does not match. *)
Definition is_line_terminator (c : Z) : bool :=
  (c =? 10) || (c =? 13) || (c =? 8232) || (c =? 8233).

(** StrWhiteSpaceChar (WhiteSpace and LineTerminator), skipped by
    [parseInt] before the digits. *)
Definition is_str_whitespace (c : Z) : bool :=
  (c =? 9) || (c =? 11) || (c =? 12) || (c =? 32) || (c =? 160)
  || (c =? 5760) || in_range 8192 8202 c || (c =? 8239) || (c =? 8287)
  || (c =? 12288) || (c =? 65279) || is_line_terminator c.

(** The value of a radix-16 digit ([None] for a code unit that is not one). *)
Definition hex_digit_value (c : Z) : option Z :=
  if in_range 48 57 c then Some (c - 48)
  else if in_range 97 102 c then Some (c - 87)
  else if in_range 65 70 c then Some (c - 55)
  else None.

(** [str.replace(/[^0-9a-fA-F]/g, '')] *)
Definition strip_non_hex (s : js_string) : js_string := filter is_hex_char s.

(** [str.match(/.{1,2}/g)]: the successive leftmost greedy matches of
    [.{1,2}]; [.] matches any code unit but a line terminator, where the
    search moves on by one position.  [None] stands for [null], returned
    when there is no match at all. *)
Fixpoint matches_dot12 (s : js_string) : list js_string :=
  match s with
  | [] => []
  | c :: rest =>
      if is_line_terminator c then matches_dot12 rest
      else match rest with
           | [] => [[c]]
           | d :: rest' =>
               if is_line_terminator d then [c] :: matches_dot12 rest
               else [c; d] :: matches_dot12 rest'
           end
  end.

Definition match_dot12 (s : js_string) : option (list js_string) :=
  match matches_dot12 s with
  | [] => None
  | ms => Some ms
  end.

(** [parseInt(string, 16)] (ECMAScript 19.2.5): skip leading white space,
    read an optional sign, strip an optional [0x]/[0X] prefix, then read the
    longest run of radix-16 digits.  [None] stands for [NaN]. *)
Fixpoint drop_str_whitespace (s : js_string) : js_string :=
  match s with
  | c :: rest => if is_str_whitespace c then drop_str_whitespace rest else s
  | [] => []
  end.

Fixpoint hex_digits_prefix (s : js_string) : list Z :=
  match s with
  | c :: rest =>
      match hex_digit_value c with
      | Some v => v :: hex_digits_prefix rest
      | None => []
      end
  | [] => []
  end.

Definition digits_value (radix : Z) (ds : list Z) : Z :=
  fold_left (fun acc d => acc * radix + d) ds 0.

Definition parseInt16 (str : js_string) : option Z :=
  let S0 := drop_str_whitespace str in
  let '(sign, S1) :=
    match S0 with
    | 45 :: rest => (-1, rest)
    | 43 :: rest => (1, rest)
    | _ => (1, S0)
    end in
  let S2 :=
    match S1 with
    | 48 :: x :: rest => if (x =? 120) || (x =? 88) then rest else S1
    | _ => S1
    end in
  match hex_digits_prefix S2 with
  | [] => None
  | ds => Some (sign * digits_value 16 ds)
  end.

(** ToUint8 applied to a number that may be [NaN] ([None]). *)
Definition num_to_uint8 (n : option Z) : Z :=
  match n with
  | Some z => to_uint8 z
  | None => 0
  end.

(** [Number.prototype.toString(16)] on an integer: lowercase digits without
    leading zeros, ["0"] for zero, a leading [-] for a negative value.  The
    fuel 64 covers every integer below [16^64]. *)
Definition hex_digit_char (d : Z) : Z := if d <? 10 then 48 + d else 87 + d.

Fixpoint digits16 (fuel : nat) (n : Z) : js_string :=
  match fuel with
  | O => []
  | S f => (if n <? 16 then [] else digits16 f (n / 16)) ++ [hex_digit_char (n mod 16)]
  end.

Definition number_toString16 (n : Z) : js_string :=
  if n <? 0 then 45 :: digits16 64 (- n) else digits16 64 n.

(** [str.padStart(targetLength, c)] with a one-character pad string. *)
Definition padStart (s : js_string) (targetLength : nat) (c : Z) : js_string :=
  repeat c (targetLength - length s) ++ s.

(** ** Hex codec

<<
export const hexToUint8Array = (hex: string): Uint8Array => {
  const cleanHex = hex.replace(/[^0-9a-fA-F]/g, '');
  const matches = cleanHex.match(/.{1,2}/g);
  if (!matches) return new Uint8Array(0);
  return new Uint8Array(matches.map(byte => parseInt(byte, 16)));
};
export const uint8ArrayToHex = (array: Uint8Array): string => {
  return Array.from(array)
    .map(b => b.toString(16).padStart(2, '0'))
    .join('');
};
>> *)

Definition hexToUint8Array (hex : js_string) : Uint8Array :=
  let cleanHex := strip_non_hex hex in
  match match_dot12 cleanHex with
  | None => []
  | Some matches => map (fun byte => num_to_uint8 (parseInt16 byte)) matches
  end.

Definition uint8ArrayToHex (array : Uint8Array) : js_string :=
  concat (map (fun b => padStart (number_toString16 b) 2 48) array).

(** ** Base64 primitives: [btoa] and [atob] (HTML Standard, WHATWG Infra)

    The base64 alphabet: [A-Z] are 0..25, [a-z] 26..51, [0-9] 52..61, [+] 62
    and [/] 63. *)
Definition b64_char (v : Z) : Z :=
  if v <? 26 then 65 + v
  else if v <? 52 then 71 + v
  else if v <? 62 then v - 4
  else if v =? 62 then 43
  else 47.

Definition b64_value (c : Z) : option Z :=
  if in_range 65 90 c then Some (c - 65)
  else if in_range 97 122 c then Some (c - 71)
  else if in_range 48 57 c then Some (c + 4)
  else if c =? 43 then Some 62
  else if c =? 47 then Some 63
  else None.

Definition is_b64_char (c : Z) : bool :=
  match b64_value c with Some _ => true | None => false end.

(** forgiving-base64 encode: RFC 4648 base64 with [=] padding, no line
    breaks.  Each group of three bytes is read as a 24-bit number [n] and
    written as the four 6-bit groups of [n], most significant first. *)
Fixpoint forgiving_base64_encode (bs : list Z) : js_string :=
  match bs with
  | a :: b :: c :: rest =>
      let n := a * 65536 + b * 256 + c in
      [b64_char (n / 262144); b64_char ((n / 4096) mod 64);
       b64_char ((n / 64) mod 64); b64_char (n mod 64)]
        ++ forgiving_base64_encode rest
  | [a; b] =>
      let n := a * 65536 + b * 256 in
      [b64_char (n / 262144); b64_char ((n / 4096) mod 64);
       b64_char ((n / 64) mod 64); 61]
  | [a] =>
      let n := a * 65536 in
      [b64_char (n / 262144); b64_char ((n / 4096) mod 64); 61; 61]
  | [] => []
  end.

(** ASCII whitespace of the Infra standard: TAB, LF, FF, CR and SPACE. *)
Definition is_ascii_whitespace (c : Z) : bool :=
  (c =? 9) || (c =? 10) || (c =? 12) || (c =? 13) || (c =? 32).

(** Step 2 of forgiving-base64 decode: when the length is a multiple of 4,
    remove one or two trailing [=]. *)
Definition strip_padding (data : js_string) : js_string :=
  if Nat.eqb (length data mod 4) 0 then
    match rev data with
    | x :: y :: r =>
        if x =? 61 then (if y =? 61 then rev r else rev (y :: r)) else data
    | [x] => if x =? 61 then [] else data
    | [] => data
    end
  else data.

(** Steps 7 and 8: each code point appends six bits to [buffer]; 24 bits
    give three bytes; a final buffer of 12 bits gives one byte (the last 4
    bits discarded), of 18 bits two bytes (the last 2 bits discarded).
    [sextets] counts the 6-bit groups held in [buffer]. *)
Fixpoint base64_decode_loop (data : js_string) (buffer : Z) (sextets : nat)
  : list Z :=
  match data with
  | [] =>
      match sextets with
      | 2%nat => [buffer / 16]
      | 3%nat => [(buffer / 4) / 256; (buffer / 4) mod 256]
      | _ => []
      end
  | c :: rest =>
      let v := match b64_value c with Some v => v | None => 0 end in
      let buffer' := buffer * 64 + v in
      if Nat.eqb sextets 3 then
        [buffer' / 65536; (buffer' / 256) mod 256; buffer' mod 256]
          ++ base64_decode_loop rest 0 0
      else base64_decode_loop rest buffer' (S sextets)
  end.

(** forgiving-base64 decode; [None] is failure.  The standard counts code
    points where this model counts UTF-16 code units: the two differ only
    on strings holding a non-ASCII character, which fail step 4 either way. *)
Definition forgiving_base64_decode (data0 : js_string) : option (list Z) :=
  let data1 := filter (fun c => negb (is_ascii_whitespace c)) data0 in
  let data := strip_padding data1 in
  if Nat.eqb (length data mod 4) 1 then None
  else if negb (forallb is_b64_char data) then None
  else Some (base64_decode_loop data 0 0).

(** [btoa(data)]: throws ([None]) when a code unit exceeds [0xFF], otherwise
    encodes the code units as bytes. *)
Definition btoa (data : js_string) : option js_string :=
  if existsb (fun c => 255 <? c) data then None
  else Some (forgiving_base64_encode data).

(** [atob(data)]: throws ([None]) when decoding fails, otherwise returns the
    string whose code units are the decoded bytes. *)
Definition atob (data : js_string) : option js_string :=
  forgiving_base64_decode data.

(** [String.fromCharCode(x)]: the code unit ToUint16(x). *)
Definition fromCharCode (x : Z) : js_string := [x mod 65536].

(** ** Base64 codec

<<
export const base64ToUint8Array = (base64: string): Uint8Array => {
  try {
    const binary = atob(base64);
    const bytes = new Uint8Array(binary.length);
    for (let i = 0; i < binary.length; i++) {
      bytes[i] = binary.charCodeAt(i);
    }
    return bytes;
  } catch (e) {
    return new Uint8Array(0);
  }
};
export const uint8ArrayToBase64 = (array: Uint8Array): string => {
  let binary = '';
  const len = array.byteLength;
  for (let i = 0; i < len; i++) {
    binary += String.fromCharCode(array[i]);
  }
  return btoa(binary);
};
>>
    [uint8ArrayToBase64] has no [try]: a throw of [btoa] ([None]) reaches the
    caller. *)
Definition base64ToUint8Array (base64 : js_string) : Uint8Array :=
  match atob base64 with
  | Some binary => map to_uint8 binary
  | None => []
  end.

Fixpoint binary_of_array (array : Uint8Array) : js_string :=
  match array with
  | [] => []
  | x :: rest => fromCharCode x ++ binary_of_array rest
  end.

Definition uint8ArrayToBase64 (array : Uint8Array) : option js_string :=
  btoa (binary_of_array array).

(** ** UTF-8 primitives: [TextEncoder] and [TextDecoder] (Encoding Standard)

    Bit operations on values known to be in range are written
    arithmetically: [x >> 6k] as [x / 2^(6k)], [x & 0x3F] as [x mod 64],
    [0x80 | t] (with [t < 64]) as [0x80 + t], [(cp << 6) | t] as
    [cp * 64 + t]. *)

(** The UTF-8 encoder applied to one scalar value. *)
Definition utf8_encode_cp (cp : Z) : list Z :=
  if cp <=? 0x7F then [cp]
  else if cp <=? 0x7FF then [cp / 64 + 0xC0; 0x80 + cp mod 64]
  else if cp <=? 0xFFFF then
    [cp / 4096 + 0xE0; 0x80 + (cp / 64) mod 64; 0x80 + cp mod 64]
  else
    [cp / 262144 + 0xF0; 0x80 + (cp / 4096) mod 64; 0x80 + (cp / 64) mod 64;
     0x80 + cp mod 64].

(** The code points of a JavaScript string, a lone surrogate replaced by
    U+FFFD ("convert to a scalar value string"). *)
Definition is_high_surrogate (c : Z) : bool := in_range 0xD800 0xDBFF c.
Definition is_low_surrogate (c : Z) : bool := in_range 0xDC00 0xDFFF c.

Fixpoint scalar_values (s : js_string) : list Z :=
  match s with
  | [] => []
  | c :: rest =>
      if is_high_surrogate c then
        match rest with
        | d :: rest' =>
            if is_low_surrogate d
            then (0x10000 + (c - 0xD800) * 1024 + (d - 0xDC00)) :: scalar_values rest'
            else 0xFFFD :: scalar_values rest
        | [] => [0xFFFD]
        end
      else if is_low_surrogate c then 0xFFFD :: scalar_values rest
      else c :: scalar_values rest
  end.

(** [new TextEncoder().encode(str)] *)
Definition text_encoder_encode (str : js_string) : list Z :=
  concat (map utf8_encode_cp (scalar_values str)).

(** The UTF-8 decoder in fatal mode: the first error aborts ([None]).  Its
    state machine (bytes needed, lower and upper boundary) is unrolled over
    the one to four bytes of each sequence. *)
Definition is_cont (lo hi b : Z) : bool := in_range lo hi b.

Fixpoint utf8_decode (bs : list Z) : option (list Z) :=
  match bs with
  | [] => Some []
  | b0 :: rest =>
      if in_range 0x00 0x7F b0 then
        option_map (cons b0) (utf8_decode rest)
      else if in_range 0xC2 0xDF b0 then
        match rest with
        | b1 :: rest1 =>
            if is_cont 0x80 0xBF b1 then
              option_map (cons ((b0 mod 32) * 64 + b1 mod 64)) (utf8_decode rest1)
            else None
        | [] => None
        end
      else if in_range 0xE0 0xEF b0 then
        let lower := if b0 =? 0xE0 then 0xA0 else 0x80 in
        let upper := if b0 =? 0xED then 0x9F else 0xBF in
        match rest with
        | b1 :: b2 :: rest2 =>
            if is_cont lower upper b1 && is_cont 0x80 0xBF b2 then
              option_map
                (cons (((b0 mod 16) * 64 + b1 mod 64) * 64 + b2 mod 64))
                (utf8_decode rest2)
            else None
        | _ => None
        end
      else if in_range 0xF0 0xF4 b0 then
        let lower := if b0 =? 0xF0 then 0x90 else 0x80 in
        let upper := if b0 =? 0xF4 then 0x8F else 0xBF in
        match rest with
        | b1 :: b2 :: b3 :: rest3 =>
            if is_cont lower upper b1 && is_cont 0x80 0xBF b2
               && is_cont 0x80 0xBF b3 then
              option_map
                (cons ((((b0 mod 8) * 64 + b1 mod 64) * 64 + b2 mod 64) * 64
                       + b3 mod 64))
                (utf8_decode rest3)
            else None
        | _ => None
        end
      else None
  end.

(** A code point as UTF-16 code units (a surrogate pair above U+FFFF). *)
Definition utf16_units (cp : Z) : js_string :=
  if cp <? 0x10000 then [cp]
  else [0xD800 + (cp - 0x10000) / 1024; 0xDC00 + (cp - 0x10000) mod 1024].

Definition to_js_string (cps : list Z) : js_string := concat (map utf16_units cps).

(** With [ignoreBOM] left false, the decoder drops a leading U+FEFF. *)
Definition strip_bom (cps : list Z) : list Z :=
  match cps with
  | c :: rest => if c =? 0xFEFF then rest else cps
  | [] => []
  end.

(** [new TextDecoder('utf-8', { fatal: true }).decode(array)]; [None] is the
    thrown [TypeError]. *)
Definition text_decoder_decode_fatal (array : list Z) : option js_string :=
  option_map (fun cps => to_js_string (strip_bom cps)) (utf8_decode array).

(** ** Text codec

<<
export const stringToUint8Array = (str: string): Uint8Array => {
  return new TextEncoder().encode(str);
};
export const uint8ArrayToString = (array: Uint8Array): string => {
  try {
    return new TextDecoder('utf-8', { fatal: true }).decode(array);
  } catch (e) {
    return "[Binary Content]";
  }
};
>> *)
Definition stringToUint8Array (str : js_string) : Uint8Array :=
  text_encoder_encode str.

Definition uint8ArrayToString (array : Uint8Array) : js_string :=
  match text_decoder_decode_fatal array with
  | Some s => s
  | None => js "[Binary Content]"
  end.

(** ** Key field ([components/KeyInput.tsx]) and file processing ([App.tsx]) *)

Inductive KeyMode := Hex | Text | Base64.

Definition KeyMode_eqb (m1 m2 : KeyMode) : bool :=
  match m1, m2 with
  | Hex, Hex | Text, Text | Base64, Base64 => true
  | _, _ => false
  end.

(** The [keyBytes] memo of [KeyInput] (and its copy in [App]):
<<
    if (mode === 'hex') return hexToUint8Array(keyValue);
    if (mode === 'base64') return base64ToUint8Array(keyValue);
    return stringToUint8Array(keyValue);
>> *)
Definition keyBytes (mode : KeyMode) (keyValue : js_string) : Uint8Array :=
  match mode with
  | Hex => hexToUint8Array keyValue
  | Base64 => base64ToUint8Array keyValue
  | Text => stringToUint8Array keyValue
  end.

Definition binary_content : js_string := js "[Binary Content]".

(** [handleModeSwitch]: the new [(mode, keyValue)] pair; [None] is an
    exception escaping from [uint8ArrayToBase64].
<<
    if (newMode === mode) return;
    let newValue = '';
    if (newMode === 'hex') newValue = uint8ArrayToHex(keyBytes);
    else if (newMode === 'base64') newValue = uint8ArrayToBase64(keyBytes);
    else {
        const str = uint8ArrayToString(keyBytes);
        newValue = str === "[Binary Content]" ? "" : str;
    }
    setMode(newMode);
    setKeyValue(newValue);
>> *)
Definition handleModeSwitch (mode : KeyMode) (keyValue : js_string)
  (newMode : KeyMode) : option (KeyMode * js_string) :=
  if KeyMode_eqb newMode mode then Some (mode, keyValue)
  else
    let kb := keyBytes mode keyValue in
    let newValue :=
      match newMode with
      | Hex => Some (uint8ArrayToHex kb)
      | Base64 => uint8ArrayToBase64 kb
      | Text =>
          let str := uint8ArrayToString kb in
          Some (if list_eq_dec Z.eq_dec str binary_content then [] else str)
      end in
    option_map (fun v => (newMode, v)) newValue.

(** [str.replace(/[^\x20-\x7E]/g, '?')] *)
Definition replace_non_printable (s : js_string) : js_string :=
  map (fun c => if in_range 0x20 0x7E c then c else 63) s.

(** [handleGenerate]: the new field value for the key [newKey] drawn by
    [generateRandomKey(16)]; [None] is an exception of [uint8ArrayToBase64].
<<
    if (mode === 'hex') setKeyValue(uint8ArrayToHex(newKey));
    else if (mode === 'base64') setKeyValue(uint8ArrayToBase64(newKey));
    else setKeyValue(uint8ArrayToString(newKey).replace(/[^\x20-\x7E]/g, '?'));
>> *)
Definition handleGenerate (mode : KeyMode) (newKey : Uint8Array) : option js_string :=
  match mode with
  | Hex => Some (uint8ArrayToHex newKey)
  | Base64 => uint8ArrayToBase64 newKey
  | Text => Some (replace_non_printable (uint8ArrayToString newKey))
  end.

(** A selected file: its name and what [FileReader.readAsArrayBuffer]
    delivers ([None] when the reader reports an error). *)
Record File := { file_name : js_string; file_contents : option Uint8Array }.

Inductive Outcome :=
| Failed (message : js_string)
| Processed (result : Uint8Array).

(** [processFile] of [App]: the error shown or the bytes of the result blob.
<<
    if (!file || keyBytes.length === 0) {
        setError("Please provide a valid key.");
        return;
    }
    ...
      reader.onload = async () => {
        const arrayBuffer = reader.result as ArrayBuffer;
        const resultBuffer = xorBuffer(arrayBuffer, keyBytes);
        ...
      };
      reader.onerror = () => { ...; setError("Error reading file."); };
      reader.readAsArrayBuffer(file);
>> *)
Definition processFile (file : option File) (kb : Uint8Array) : Outcome :=
  match file with
  | Some f =>
      if Nat.eqb (length kb) 0 then Failed (js "Please provide a valid key.")
      else match file_contents f with
           | Some arrayBuffer => Processed (xorBuffer arrayBuffer kb)
           | None => Failed (js "Error reading file.")
           end
  | None => Failed (js "Please provide a valid key.")
  end.

Inductive ProcessMode := ENCRYPT | DECRYPT.

(** [str.endsWith(suffix)] and [str.slice(0, -n)]. *)
Definition endsWith (s suffix : js_string) : bool :=
  if list_eq_dec Z.eq_dec (skipn (length s - length suffix) s) suffix
  then (length suffix <=? length s)%nat else false.

Definition slice_drop_end (s : js_string) (n : nat) : js_string :=
  firstn (length s - n) s.

(** The [download] attribute of the result link:
<<
  mode === ProcessMode.ENCRYPT ? `${file?.name}.xor`
    : (file?.name.endsWith('.xor') ? file?.name.slice(0, -4) : `decrypted_${file?.name}`)
>> *)
Definition downloadName (mode : ProcessMode) (name : js_string) : js_string :=
  match mode with
  | ENCRYPT => name ++ js ".xor"
  | DECRYPT =>
      if endsWith name (js ".xor") then slice_drop_end name 4
      else js "decrypted_" ++ name
  end.

(** The header sent for analysis by [handleFileChange]:
    [uint8ArrayToHex(new Uint8Array(reader.result))] of [selectedFile.slice(0, 128)]. *)
Definition headerHex (contents : Uint8Array) : js_string :=
  uint8ArrayToHex (firstn 128 contents).

(** A JavaScript string: UTF-16 code units. *)
Definition js_string_ok (s : js_string) : Prop := Forall (fun c => 0 <= c <= 0xFFFF) s.

(** ** Proof vocabulary *)

(** Consecutive chunks of two, the last one of one element when the length is
    odd. *)
Fixpoint chunks2 {A} (s : list A) : list (list A) :=
  match s with
  | [] => []
  | [c] => [[c]]
  | c :: d :: rest => [c; d] :: chunks2 rest
  end.

(** The two characters [uint8ArrayToHex] renders for one byte. *)
Definition hex_pair (b : Z) : js_string := padStart (number_toString16 b) 2 48.

(** ASCII lowercase mapping, to compare upper- and lowercase hex digits. *)
Definition to_lower (c : Z) : Z := if in_range 65 90 c then c + 32 else c.

(** The code units [lo, lo + n). *)
Definition z_range (lo : nat) (n : nat) : list Z := map Z.of_nat (seq lo n).

(** Lowercase hex digits [[0-9a-f]]. *)
Definition is_lower_hex_char (c : Z) : bool := in_range 48 57 c || in_range 97 102 c.

(** What [uint8ArrayToHex] should render for one byte: two lowercase digits. *)
Definition hex_pair_expected (x : Z) : js_string :=
  [hex_digit_char (x / 16); hex_digit_char (x mod 16)].

(** The base64 characters of [forgiving_base64_encode bs] without its
    padding, and the number of [=] that follow them. *)
Fixpoint b64_core (bs : list Z) : js_string :=
  match bs with
  | a :: b :: c :: rest =>
      let n := a * 65536 + b * 256 + c in
      [b64_char (n / 262144); b64_char ((n / 4096) mod 64);
       b64_char ((n / 64) mod 64); b64_char (n mod 64)] ++ b64_core rest
  | [a; b] =>
      let n := a * 65536 + b * 256 in
      [b64_char (n / 262144); b64_char ((n / 4096) mod 64);
       b64_char ((n / 64) mod 64)]
  | [a] =>
      let n := a * 65536 in
      [b64_char (n / 262144); b64_char ((n / 4096) mod 64)]
  | [] => []
  end.

Fixpoint b64_pad (bs : list Z) : nat :=
  match bs with
  | _ :: _ :: _ :: rest => b64_pad rest
  | [_; _] => 1
  | [_] => 2
  | [] => 0
  end.

(** Unicode scalar values. *)
Definition is_scalar (cp : Z) : Prop := 0 <= cp <= 0x10FFFF /\ ~ (0xD800 <= cp <= 0xDFFF).

(** Well-formed UTF-8 byte sequences, Table 3-7 of the Unicode Standard. *)
Inductive valid_utf8 : list Z -> Prop :=
| valid_nil : valid_utf8 []
| valid_1 b0 rest :
    0x00 <= b0 <= 0x7F -> valid_utf8 rest -> valid_utf8 (b0 :: rest)
| valid_2 b0 b1 rest :
    0xC2 <= b0 <= 0xDF -> 0x80 <= b1 <= 0xBF ->
    valid_utf8 rest -> valid_utf8 (b0 :: b1 :: rest)
| valid_3_E0 b1 b2 rest :
    0xA0 <= b1 <= 0xBF -> 0x80 <= b2 <= 0xBF ->
    valid_utf8 rest -> valid_utf8 (0xE0 :: b1 :: b2 :: rest)
| valid_3_E1_EC b0 b1 b2 rest :
    0xE1 <= b0 <= 0xEC -> 0x80 <= b1 <= 0xBF -> 0x80 <= b2 <= 0xBF ->
    valid_utf8 rest -> valid_utf8 (b0 :: b1 :: b2 :: rest)
| valid_3_ED b1 b2 rest :
    0x80 <= b1 <= 0x9F -> 0x80 <= b2 <= 0xBF ->
    valid_utf8 rest -> valid_utf8 (0xED :: b1 :: b2 :: rest)
| valid_3_EE_EF b0 b1 b2 rest :
    0xEE <= b0 <= 0xEF -> 0x80 <= b1 <= 0xBF -> 0x80 <= b2 <= 0xBF ->
    valid_utf8 rest -> valid_utf8 (b0 :: b1 :: b2 :: rest)
| valid_4_F0 b1 b2 b3 rest :
    0x90 <= b1 <= 0xBF -> 0x80 <= b2 <= 0xBF -> 0x80 <= b3 <= 0xBF ->
    valid_utf8 rest -> valid_utf8 (0xF0 :: b1 :: b2 :: b3 :: rest)
| valid_4_F1_F3 b0 b1 b2 b3 rest :
    0xF1 <= b0 <= 0xF3 -> 0x80 <= b1 <= 0xBF -> 0x80 <= b2 <= 0xBF ->
    0x80 <= b3 <= 0xBF -> valid_utf8 rest -> valid_utf8 (b0 :: b1 :: b2 :: b3 :: rest)
| valid_4_F4 b1 b2 b3 rest :
    0x80 <= b1 <= 0x8F -> 0x80 <= b2 <= 0xBF -> 0x80 <= b3 <= 0xBF ->
    valid_utf8 rest -> valid_utf8 (0xF4 :: b1 :: b2 :: b3 :: rest).

(** The byte sequence starts with the UTF-8 byte order mark EF BB BF. *)
Definition has_utf8_bom (b : list Z) : bool :=
  match b with
  | x :: rest =>
      (x =? 0xEF)
      && match rest with
         | y :: rest' => (y =? 0xBB) && match rest' with
                                        | z :: _ => z =? 0xBF
                                        | [] => false
                                        end
         | [] => false
         end
  | [] => false
  end.

(** Boolean checks run over finite ranges by the proofs below. *)

(** Facts on single hex digits, checked on every code unit of [48, 103). *)
Definition hex_char_facts (c : Z) : bool :=
  if is_hex_char c then
    match hex_digit_value c with
    | Some v =>
        (0 <=? v) && (v <? 16)
        && match parseInt16 [c] with Some w => w =? v | None => false end
        && match hex_digit_value (to_lower c) with
           | Some w => (w =? v) && is_hex_char (to_lower c)
           | None => false end
    | None => false
    end
  else true.

Definition hex_pair_facts (c : Z) : bool :=
  forallb (fun d =>
    if is_hex_char c && is_hex_char d then
      match hex_digit_value c, hex_digit_value d, parseInt16 [c; d] with
      | Some v, Some w, Some x => x =? 16 * v + w
      | _, _, _ => false
      end
    else true) (z_range 48 55).

Definition hex_pair_ok (x : Z) : bool :=
  match hex_pair x with
  | [c; d] =>
      is_lower_hex_char c && is_lower_hex_char d && is_hex_char c && is_hex_char d
      && match parseInt16 [c; d] with Some y => y =? x | None => false end
      && (if list_eq_dec Z.eq_dec (hex_pair x) (hex_pair_expected x)
          then true else false)
  | _ => false
  end.

Definition b64_char_facts (v : Z) : bool :=
  match b64_value (b64_char v) with
  | Some w => (w =? v) && negb (b64_char v =? 61)
              && negb (is_ascii_whitespace (b64_char v))
  | None => false
  end.

(** The characters of the unpadded encoding are base64 digits. *)
Definition b64_digit (c : Z) : Prop := exists v, 0 <= v < 64 /\ c = b64_char v.

(** ** Lemmas on bytes *)

Lemma lxor_u8 (x y : Z) : is_u8 x -> is_u8 y -> is_u8 (Z.lxor x y).
Proof.
  unfold is_u8; intros Hx Hy.
  assert (Hb : forall z, 0 <= z < 256 -> Z.log2 z < 8).
  { intros z Hz; destruct (Z.eq_dec z 0) as [->|Hz0]; [reflexivity|].
    apply Z.log2_lt_pow2; lia. }
  split; [apply Z.lxor_nonneg; lia|].
  destruct (Z.eq_dec (Z.lxor x y) 0) as [E|E]; [lia|].
  assert (Hl := Z.log2_lxor x y ltac:(lia) ltac:(lia)).
  assert (0 <= Z.lxor x y) by (apply Z.lxor_nonneg; lia).
  change 256 with (2 ^ 8); apply Z.log2_lt_pow2; [lia|].
  pose proof (Hb x Hx); pose proof (Hb y Hy); lia.
Qed.

Lemma to_uint8_u8 (x : Z) : is_u8 x -> to_uint8 x = x.
Proof. unfold is_u8, to_uint8; intros; apply Z.mod_small; lia. Qed.

Lemma lxor_cancel_r (x y : Z) : Z.lxor (Z.lxor x y) y = x.
Proof. rewrite Z.lxor_assoc, Z.lxor_nilpotent, Z.lxor_0_r; reflexivity. Qed.

Lemma nth_u8 (k : Uint8Array) (n : nat) :
  bytes_ok k -> is_u8 (nth n k 0).
Proof.
  intros Hk; revert n; induction Hk as [|a k Ha Hk IH]; intros [|n];
    simpl; unfold is_u8 in *; auto; lia.
Qed.

Lemma xor_loop_length (k : Uint8Array) (n i : nat) (b : Uint8Array) :
  length (xor_loop k n i b) = length b.
Proof. revert i; induction b; intros; simpl; auto. Qed.

Lemma xor_loop_nth (k : Uint8Array) (n i j : nat) (b : Uint8Array) :
  (j < length b)%nat ->
  nth j (xor_loop k n i b) 0
  = to_uint8 (Z.lxor (nth j b 0) (nth ((i + j) mod n) k 0)).
Proof.
  revert i j; induction b as [|x b IH]; intros i j Hj; simpl in *; [lia|].
  destruct j as [|j].
  - rewrite Nat.add_0_r; reflexivity.
  - rewrite IH by lia; rewrite <- plus_n_Sm; reflexivity.
Qed.

Lemma xor_loop_involutive (k : Uint8Array) (n i : nat) (b : Uint8Array) :
  bytes_ok b -> bytes_ok k ->
  xor_loop k n i (xor_loop k n i b) = b.
Proof.
  intros Hb Hk; revert i; induction Hb as [|x b Hx Hb IH]; intros i; simpl;
    [reflexivity|].
  pose proof (nth_u8 k (i mod n) Hk) as Hki.
  rewrite (to_uint8_u8 (Z.lxor x _)) by (apply lxor_u8; auto).
  rewrite lxor_cancel_r, to_uint8_u8 by auto.
  rewrite IH; reflexivity.
Qed.


(** ** Lemmas on the hex codec *)

Lemma z_range_forallb (f : Z -> bool) (lo n : nat) (z : Z) :
  forallb f (z_range lo n) = true ->
  Z.of_nat lo <= z < Z.of_nat lo + Z.of_nat n -> f z = true.
Proof.
  unfold z_range; intros Hf Hz.
  rewrite forallb_forall in Hf; apply Hf, in_map_iff.
  exists (Z.to_nat z); split; [lia|]; apply in_seq; lia.
Qed.

Lemma hex_char_bounds (c : Z) : is_hex_char c = true -> 48 <= c <= 102.
Proof.
  unfold is_hex_char, in_range.
  rewrite !orb_true_iff, !andb_true_iff, !Z.leb_le; lia.
Qed.

Lemma hex_char_not_lt (c : Z) :
  is_hex_char c = true -> is_line_terminator c = false.
Proof.
  intros H; apply hex_char_bounds in H; unfold is_line_terminator.
  replace (c =? 10) with false by (symmetry; apply Z.eqb_neq; lia).
  replace (c =? 13) with false by (symmetry; apply Z.eqb_neq; lia).
  replace (c =? 8232) with false by (symmetry; apply Z.eqb_neq; lia).
  replace (c =? 8233) with false by (symmetry; apply Z.eqb_neq; lia).
  reflexivity.
Qed.

Lemma hex_char_facts_all : forallb hex_char_facts (z_range 48 55) = true.
Proof. vm_compute; reflexivity. Qed.

Lemma hex_pair_facts_all : forallb hex_pair_facts (z_range 48 55) = true.
Proof. vm_compute; reflexivity. Qed.

Lemma hex_digit_value_spec (c : Z) :
  is_hex_char c = true ->
  exists v, hex_digit_value c = Some v /\ 0 <= v < 16
            /\ parseInt16 [c] = Some v
            /\ hex_digit_value (to_lower c) = Some v
            /\ is_hex_char (to_lower c) = true.
Proof.
  intros Hc; pose proof (hex_char_bounds c Hc) as Hb.
  pose proof (z_range_forallb _ _ _ c hex_char_facts_all ltac:(lia)) as H.
  unfold hex_char_facts in H; rewrite Hc in H.
  destruct (hex_digit_value c) as [v|]; [|discriminate].
  destruct (parseInt16 [c]) as [w|]; [|rewrite andb_false_r in H; discriminate].
  destruct (hex_digit_value (to_lower c)) as [w'|];
    [|rewrite andb_false_r in H; discriminate].
  rewrite !andb_true_iff, Z.leb_le, Z.ltb_lt, !Z.eqb_eq in H.
  exists v; intuition congruence.
Qed.

Lemma parseInt16_pair (c d : Z) :
  is_hex_char c = true -> is_hex_char d = true ->
  exists v w, hex_digit_value c = Some v /\ hex_digit_value d = Some w
              /\ parseInt16 [c; d] = Some (16 * v + w).
Proof.
  intros Hc Hd.
  pose proof (hex_char_bounds c Hc) as Bc; pose proof (hex_char_bounds d Hd) as Bd.
  pose proof (z_range_forallb _ _ _ c hex_pair_facts_all ltac:(lia)) as H.
  unfold hex_pair_facts in H.
  pose proof (z_range_forallb _ _ _ d H ltac:(lia)) as H'; simpl in H'.
  rewrite Hc, Hd in H'; simpl in H'.
  destruct (hex_digit_value c) as [v|], (hex_digit_value d) as [w|],
    (parseInt16 [c; d]) as [x|]; try discriminate.
  apply Z.eqb_eq in H'; subst; eauto.
Qed.

Lemma matches_dot12_chunks (s : js_string) :
  Forall (fun c => is_line_terminator c = false) s ->
  matches_dot12 s = chunks2 s.
Proof.
  revert s; fix IH 1; intros [|c [|d rest]] H; simpl; [reflexivity| |].
  - apply Forall_cons_iff in H as [Hc _]; rewrite Hc; reflexivity.
  - apply Forall_cons_iff in H as [Hc H1]; apply Forall_cons_iff in H1 as [Hd H2].
    rewrite Hc, Hd, (IH rest H2); reflexivity.
Qed.

(** [hexToUint8Array] parses the chunks of two of the cleaned string. *)
Lemma hexToUint8Array_chunks (s : js_string) :
  hexToUint8Array s
  = map (fun byte => num_to_uint8 (parseInt16 byte)) (chunks2 (strip_non_hex s)).
Proof.
  unfold hexToUint8Array, match_dot12.
  rewrite matches_dot12_chunks.
  - destruct (chunks2 (strip_non_hex s)); reflexivity.
  - unfold strip_non_hex; apply Forall_forall; intros c Hc.
    apply filter_In in Hc; apply hex_char_not_lt, Hc.
Qed.

Lemma strip_non_hex_id (s : js_string) :
  Forall (fun c => is_hex_char c = true) s -> strip_non_hex s = s.
Proof.
  induction 1 as [|c s Hc _ IH]; simpl; [reflexivity|].
  rewrite Hc; f_equal; exact IH.
Qed.

Lemma strip_non_hex_idem (s : js_string) :
  strip_non_hex (strip_non_hex s) = strip_non_hex s.
Proof.
  apply strip_non_hex_id, Forall_forall; intros c Hc.
  apply filter_In in Hc; apply Hc.
Qed.

Lemma hex_pair_ok_all : forallb hex_pair_ok (z_range 0 256) = true.
Proof. vm_compute; reflexivity. Qed.

Lemma hex_pair_spec (x : Z) :
  is_u8 x ->
  exists c d, hex_pair x = [c; d]
              /\ is_lower_hex_char c = true /\ is_lower_hex_char d = true
              /\ is_hex_char c = true /\ is_hex_char d = true
              /\ parseInt16 [c; d] = Some x
              /\ hex_pair x = hex_pair_expected x.
Proof.
  unfold is_u8; intros Hx.
  pose proof (z_range_forallb _ _ _ x hex_pair_ok_all ltac:(lia)) as H.
  unfold hex_pair_ok in H.
  destruct (hex_pair x) as [|c [|d [|e r]]] eqn:E; try discriminate.
  destruct (parseInt16 [c; d]) as [y|] eqn:P; [|rewrite !andb_false_r in H; discriminate].
  destruct (list_eq_dec Z.eq_dec [c; d] (hex_pair_expected x));
    [|rewrite andb_false_r in H; discriminate].
  rewrite !andb_true_iff, Z.eqb_eq in H.
  exists c, d; intuition congruence.
Qed.

Lemma uint8ArrayToHex_pairs (b : Uint8Array) :
  bytes_ok b ->
  Forall (fun c => is_hex_char c = true) (uint8ArrayToHex b)
  /\ chunks2 (uint8ArrayToHex b) = map hex_pair b.
Proof.
  unfold uint8ArrayToHex; fold hex_pair.
  induction 1 as [|x b Hx Hb [IH1 IH2]]; simpl; [split; constructor|].
  destruct (hex_pair_spec x Hx) as (c & d & E & _ & _ & Hc & Hd & _).
  rewrite E; simpl; split.
  - repeat constructor; assumption.
  - rewrite IH2; reflexivity.
Qed.

Lemma chunks2_map {A B} (f : A -> B) (s : list A) :
  chunks2 (map f s) = map (map f) (chunks2 s).
Proof.
  revert s; fix IH 1; intros [|c [|d rest]]; simpl; [reflexivity|reflexivity|].
  rewrite IH; reflexivity.
Qed.

Lemma chunks2_shape {A} (P : A -> Prop) (s : list A) :
  Forall P s ->
  Forall (fun ch => (exists c, ch = [c] /\ P c)
                    \/ (exists c d, ch = [c; d] /\ P c /\ P d)) (chunks2 s).
Proof.
  revert s; fix IH 1; intros [|c [|d rest]] H; simpl; [constructor| |].
  - apply Forall_cons_iff in H as [Hc _]; repeat constructor; eauto.
  - apply Forall_cons_iff in H as [Hc H1]; apply Forall_cons_iff in H1 as [Hd H2].
    constructor; [right; eauto | apply IH, H2].
Qed.

Lemma chunks2_length {A} (s : list A) :
  length (chunks2 s) = ((length s + 1) / 2)%nat.
Proof.
  revert s; fix IH 1; intros [|c [|d rest]]; [reflexivity|reflexivity|].
  cbn [chunks2 length]; rewrite IH.
  replace (S (S (length rest)) + 1)%nat with ((length rest + 1) + 1 * 2)%nat by lia.
  rewrite Nat.div_add by lia; lia.
Qed.

Lemma chunks2_odd {A} (m : nat) (s : list A) (a : A) :
  length s = (2 * m + 1)%nat ->
  chunks2 s = chunks2 (firstn (2 * m) s) ++ [[last s a]].
Proof.
  revert s; induction m as [|m IH]; intros s Hs.
  - destruct s as [|c [|d r]]; simpl in *; try lia; reflexivity.
  - destruct s as [|c [|d r]]; simpl in Hs; try lia.
    replace (2 * S m)%nat with (S (S (2 * m))) by lia.
    simpl firstn; simpl chunks2.
    rewrite (IH r) by lia.
    destruct r as [|e r]; [simpl in Hs; lia|reflexivity].
Qed.

Lemma strip_non_hex_all (s : js_string) :
  Forall (fun c => is_hex_char c = true) (strip_non_hex s).
Proof.
  apply Forall_forall; intros c Hc; apply filter_In in Hc; apply Hc.
Qed.

Lemma is_hex_char_to_lower (c : Z) : is_hex_char (to_lower c) = is_hex_char c.
Proof.
  unfold to_lower; destruct (in_range 65 90 c) eqn:E; [|reflexivity].
  assert (Hr : forallb (fun c => Bool.eqb (is_hex_char (c + 32)) (is_hex_char c))
                 (z_range 65 26) = true) by (vm_compute; reflexivity).
  unfold in_range in E; rewrite andb_true_iff, !Z.leb_le in E.
  apply Bool.eqb_prop, (z_range_forallb _ _ _ c Hr); lia.
Qed.

Lemma strip_non_hex_to_lower (s : js_string) :
  strip_non_hex (map to_lower s) = map to_lower (strip_non_hex s).
Proof.
  induction s as [|c s IH]; simpl; [reflexivity|].
  rewrite is_hex_char_to_lower; destruct (is_hex_char c); simpl; rewrite IH;
    reflexivity.
Qed.

Example hex_scenario_2 :
  hexToUint8Array (js "de:ad-BE#EF") = [222; 173; 190; 239].
Proof. reflexivity. Qed.
Example hex_abc : hexToUint8Array (js "abc") = [171; 12].
Proof. reflexivity. Qed.
Example hex_enc : uint8ArrayToHex [0; 10; 255; 16] = js "000aff10".
Proof. reflexivity. Qed.
Example hex_empty : hexToUint8Array (js "xyz") = [].
Proof. reflexivity. Qed.

Lemma hex_chunk_to_lower (ch : js_string) :
  ((exists c, ch = [c] /\ is_hex_char c = true)
   \/ (exists c d, ch = [c; d] /\ is_hex_char c = true /\ is_hex_char d = true)) ->
  parseInt16 (map to_lower ch) = parseInt16 ch.
Proof.
  intros [(c & -> & Hc) | (c & d & -> & Hc & Hd)]; simpl.
  - destruct (hex_digit_value_spec c Hc) as (v & Ev & _ & Pv & Lv & Hl).
    destruct (hex_digit_value_spec (to_lower c) Hl) as (v' & Ev' & _ & Pv' & _).
    rewrite Pv, Pv'; congruence.
  - destruct (hex_digit_value_spec c Hc) as (v & Ev & _ & _ & Lv & Hlc).
    destruct (hex_digit_value_spec d Hd) as (w & Ew & _ & _ & Lw & Hld).
    destruct (parseInt16_pair c d Hc Hd) as (v1 & w1 & E1 & F1 & P1).
    destruct (parseInt16_pair _ _ Hlc Hld) as (v2 & w2 & E2 & F2 & P2).
    rewrite P1, P2; congruence.
Qed.

Lemma hexToUint8Array_to_lower (s : js_string) :
  hexToUint8Array (map to_lower s) = hexToUint8Array s.
Proof.
  rewrite !hexToUint8Array_chunks, strip_non_hex_to_lower, chunks2_map, map_map.
  apply map_ext_in; intros ch Hch.
  pose proof (chunks2_shape _ _ (strip_non_hex_all s)) as Hs.
  rewrite Forall_forall in Hs; rewrite hex_chunk_to_lower by (apply Hs, Hch).
  reflexivity.
Qed.

Lemma hexToUint8Array_strip (s : js_string) :
  hexToUint8Array s = hexToUint8Array (strip_non_hex s).
Proof. rewrite !hexToUint8Array_chunks, strip_non_hex_idem; reflexivity. Qed.

(** ** XOR transform *)

(** C1: applying [xorBuffer] twice with the same non-empty key gives the
    input back (XOR involution). *)
Theorem xorBuffer_involutive (b k : Uint8Array) :
  k <> [] -> bytes_ok b -> bytes_ok k ->
  xorBuffer (xorBuffer b k) k = b.
Proof.
  intros Hk Hb Hkb; unfold xorBuffer.
  destruct (Nat.eqb_spec (length k) 0) as [E|E].
  - apply length_zero_iff_nil in E; contradiction.
  - apply xor_loop_involutive; assumption.
Qed.

Lemma xorBuffer_involutive_witness :
  xorBuffer (xorBuffer [72; 101; 108; 108; 111] [42]) [42] = [72; 101; 108; 108; 111].
Proof.
  apply xorBuffer_involutive;
    [discriminate | repeat constructor; unfold is_u8; lia ..].
Defined.

(** C2: with a non-empty key, [xorBuffer] keeps the length of the input and
    its byte [i] is [input[i] XOR key[i mod len(key)]]. *)
Theorem xorBuffer_spec (b k : Uint8Array) :
  k <> [] -> bytes_ok b -> bytes_ok k ->
  length (xorBuffer b k) = length b
  /\ (forall i, (i < length b)%nat ->
        nth i (xorBuffer b k) 0 = Z.lxor (nth i b 0) (nth (i mod length k) k 0)).
Proof.
  intros Hk Hb Hkb; unfold xorBuffer.
  destruct (Nat.eqb_spec (length k) 0) as [E|E].
  { apply length_zero_iff_nil in E; contradiction. }
  split; [apply xor_loop_length|].
  intros i Hi; rewrite xor_loop_nth by exact Hi; simpl.
  apply to_uint8_u8, lxor_u8; [|apply nth_u8, Hkb].
  apply (nth_u8 b i Hb).
Qed.

Lemma xorBuffer_spec_witness :
  length (xorBuffer [72; 101; 108; 108; 111] [42; 7]) = 5%nat
  /\ nth 3 (xorBuffer [72; 101; 108; 108; 111] [42; 7]) 0 = Z.lxor 108 7.
Proof.
  destruct (xorBuffer_spec [72; 101; 108; 108; 111] [42; 7])
    as [H1 H2]; [discriminate | repeat constructor; unfold is_u8; lia ..|].
  split; [exact H1 | apply (H2 3%nat); simpl; lia].
Defined.

(** C6: with an empty key, [xorBuffer] returns its input unchanged. *)
Theorem xorBuffer_empty_key (b : Uint8Array) : xorBuffer b [] = b.
Proof. reflexivity. Qed.

(** ** Hex codec *)

(** C3: every byte is rendered as two lowercase hex digits, concatenated, and
    [hexToUint8Array] decodes [uint8ArrayToHex b] back to [b]. *)
Theorem hex_roundtrip (b : Uint8Array) :
  bytes_ok b ->
  hexToUint8Array (uint8ArrayToHex b) = b
  /\ uint8ArrayToHex b = concat (map hex_pair_expected b)
  /\ Forall (fun c => is_lower_hex_char c = true) (uint8ArrayToHex b).
Proof.
  intros Hb; destruct (uint8ArrayToHex_pairs b Hb) as [Hall Hch].
  split; [|split].
  - rewrite hexToUint8Array_chunks, strip_non_hex_id, Hch by exact Hall.
    rewrite map_map; clear Hall Hch.
    induction Hb as [|x b Hx Hb IH]; simpl; [reflexivity|].
    destruct (hex_pair_spec x Hx) as (c & d & E & _ & _ & _ & _ & P & _).
    rewrite E, P, IH; simpl; rewrite to_uint8_u8 by exact Hx; reflexivity.
  - unfold uint8ArrayToHex; f_equal; apply map_ext_in; intros x Hx.
    unfold bytes_ok in Hb; rewrite Forall_forall in Hb.
    destruct (hex_pair_spec x (Hb x Hx)) as (c & d & _ & _ & _ & _ & _ & _ & E).
    exact E.
  - clear Hall Hch; unfold uint8ArrayToHex.
    induction Hb as [|x b Hx Hb IH]; simpl; [constructor|].
    destruct (hex_pair_spec x Hx) as (c & d & E & Lc & Ld & _).
    unfold hex_pair in E; rewrite E; repeat constructor; assumption.
Qed.

Lemma hex_roundtrip_witness :
  hexToUint8Array (uint8ArrayToHex [0; 10; 255; 16]) = [0; 10; 255; 16].
Proof.
  apply hex_roundtrip; repeat constructor; unfold is_u8; lia.
Defined.

Lemma Forall_last {A} (P : A -> Prop) (l : list A) (d : A) :
  Forall P l -> l <> [] -> P (last l d).
Proof.
  induction 1 as [|x l Hx Hl IH]; intros Hne; [congruence|].
  destruct l as [|y l]; [exact Hx|]; apply IH; discriminate.
Qed.

Lemma Forall_firstn {A} (P : A -> Prop) (n : nat) (l : list A) :
  Forall P l -> Forall P (firstn n l).
Proof.
  intros H; rewrite <- (firstn_skipn n l) in H; apply Forall_app in H; apply H.
Qed.

(** The last byte produced from an odd-length cleaned string is the value of
    its last hex digit. *)
Lemma hexToUint8Array_odd_split (s : js_string) (m : nat) :
  length (strip_non_hex s) = (2 * m + 1)%nat ->
  exists v, hex_digit_value (last (strip_non_hex s) 0) = Some v /\ 0 <= v < 16
            /\ hexToUint8Array s
               = hexToUint8Array (firstn (2 * m) (strip_non_hex s)) ++ [v].
Proof.
  intros Hlen.
  assert (Hne : strip_non_hex s <> []) by (intros E; rewrite E in Hlen; simpl in Hlen; lia).
  pose proof (Forall_last _ _ 0 (strip_non_hex_all s) Hne) as Hc.
  destruct (hex_digit_value_spec _ Hc) as (v & Ev & Bv & Pv & _).
  exists v; split; [exact Ev|split; [exact Bv|]].
  rewrite !hexToUint8Array_chunks, (chunks2_odd m _ 0 Hlen), map_app.
  rewrite (strip_non_hex_id (firstn _ _)) by (apply Forall_firstn, strip_non_hex_all).
  simpl; rewrite Pv; simpl; rewrite to_uint8_u8 by (unfold is_u8; lia).
  reflexivity.
Qed.

(** C9: [hexToUint8Array] first drops every character outside [[0-9a-fA-F]],
    reads upper- and lowercase digits alike, decodes ["de:ad-BE#EF"] to
    [[0xDE; 0xAD; 0xBE; 0xEF]] and decodes a string without any hex digit to
    the empty array. *)
Theorem hex_decode_strip_and_case :
  (forall s, hexToUint8Array s = hexToUint8Array (strip_non_hex s))
  /\ (forall s, hexToUint8Array (map to_lower s) = hexToUint8Array s)
  /\ hexToUint8Array (js "de:ad-BE#EF") = [222; 173; 190; 239]
  /\ (forall s, strip_non_hex s = [] -> hexToUint8Array s = []).
Proof.
  split; [exact hexToUint8Array_strip|].
  split; [exact hexToUint8Array_to_lower|].
  split; [reflexivity|].
  intros s E; rewrite hexToUint8Array_chunks, E; reflexivity.
Qed.

Lemma hex_decode_strip_and_case_witness :
  hexToUint8Array (js "xyz: -- !?") = [].
Proof.
  apply (proj2 (proj2 (proj2 hex_decode_strip_and_case))); vm_compute; reflexivity.
Defined.

(** C10: when the cleaned string has odd length [2m+1], [hexToUint8Array]
    returns [m+1] bytes, the last one holding the value (in [[0, 15]]) of the
    lone trailing digit; in general it returns [ceil(len/2)] bytes. *)
Theorem hexToUint8Array_odd_length (s : js_string) (m : nat) :
  length (strip_non_hex s) = (2 * m + 1)%nat ->
  length (hexToUint8Array s) = (m + 1)%nat
  /\ (exists v, hex_digit_value (last (strip_non_hex s) 0) = Some v /\ 0 <= v < 16
                /\ last (hexToUint8Array s) 0 = v)
  /\ (forall s', length (hexToUint8Array s')
                 = ((length (strip_non_hex s') + 1) / 2)%nat).
Proof.
  intros Hlen.
  assert (Hgen : forall s', length (hexToUint8Array s')
                            = ((length (strip_non_hex s') + 1) / 2)%nat).
  { intros s'; rewrite hexToUint8Array_chunks, length_map; apply chunks2_length. }
  split; [|split; [|exact Hgen]].
  - rewrite Hgen, Hlen.
    replace (2 * m + 1 + 1)%nat with ((m + 1) * 2)%nat by lia.
    apply Nat.div_mul; lia.
  - destruct (hexToUint8Array_odd_split s m Hlen) as (v & Ev & Bv & E).
    exists v; split; [exact Ev|split; [exact Bv|]].
    rewrite E; apply last_last.
Qed.

Lemma hexToUint8Array_odd_length_witness :
  length (hexToUint8Array (js "a-b-c")) = 2%nat
  /\ last (hexToUint8Array (js "a-b-c")) 0 = 12.
Proof.
  destruct (hexToUint8Array_odd_length (js "a-b-c") 1 eq_refl)
    as (L & (v & Ev & _ & Hv) & _).
  vm_compute in Ev; injection Ev as <-.
  split; [exact L | exact Hv].
Defined.

(** C4 (as the code behaves): when the cleaned string has odd length
    [2m+1], the trailing lone hex digit is not dropped: the result is the
    decoding of the first [2m] digits followed by one byte holding the value
    of that digit. *)
Theorem hex_trailing_nibble_kept (s : js_string) (m : nat) :
  length (strip_non_hex s) = (2 * m + 1)%nat ->
  exists v, hex_digit_value (last (strip_non_hex s) 0) = Some v
            /\ hexToUint8Array s
               = hexToUint8Array (firstn (2 * m) (strip_non_hex s)) ++ [v].
Proof.
  intros Hlen; destruct (hexToUint8Array_odd_split s m Hlen) as (v & Ev & _ & E).
  exists v; split; assumption.
Qed.

Lemma hex_trailing_nibble_kept_witness :
  hexToUint8Array (js "abc") = hexToUint8Array (js "ab") ++ [12].
Proof.
  destruct (hex_trailing_nibble_kept (js "abc") 1 eq_refl) as (v & Ev & E).
  vm_compute in Ev; injection Ev as <-; exact E.
Defined.

(** C4 as stated fails: the lone trailing digit of ["abc"] is not discarded;
    it becomes the byte [0x0c]. *)
Lemma hex_trailing_nibble_dropped_counterexample :
  hexToUint8Array (js "abc") = [171; 12]
  /\ hexToUint8Array (js "abc") <> hexToUint8Array (js "ab").
Proof. split; [reflexivity | vm_compute; discriminate]. Qed.

Example b64_hello :
  uint8ArrayToBase64 [72; 101; 108; 108; 111] = Some (js "SGVsbG8=")
  /\ base64ToUint8Array (js "SGVsbG8=") = [72; 101; 108; 108; 111].
Proof. split; reflexivity. Qed.
Example b64_more :
  uint8ArrayToBase64 [255; 0; 250; 1] = Some (js "/wD6AQ==")
  /\ base64ToUint8Array (js " /wD6 AQ") = [255; 0; 250; 1]
  /\ base64ToUint8Array (js "abcde") = [].
Proof. repeat split; reflexivity. Qed.

(** ** Lemmas on the base64 codec *)

Lemma b64_char_facts_all : forallb b64_char_facts (z_range 0 64) = true.
Proof. vm_compute; reflexivity. Qed.

Lemma b64_char_spec (v : Z) :
  0 <= v < 64 ->
  b64_value (b64_char v) = Some v /\ (b64_char v =? 61) = false
  /\ is_ascii_whitespace (b64_char v) = false.
Proof.
  intros Hv; pose proof (z_range_forallb _ _ _ v b64_char_facts_all ltac:(lia)) as H.
  unfold b64_char_facts in H; destruct (b64_value (b64_char v)) as [w|];
    [|discriminate].
  rewrite !andb_true_iff, !negb_true_iff, Z.eqb_eq in H.
  destruct H as [[-> ?] ?]; auto.
Qed.

Lemma b64_value_char (v : Z) : 0 <= v < 64 -> b64_value (b64_char v) = Some v.
Proof. intros Hv; apply (b64_char_spec v Hv). Qed.

Ltac b64_digit_tac :=
  eexists; (split; [|reflexivity]); Z.to_euclidean_division_equations; lia.

Lemma b64_core_digits (bs : list Z) :
  bytes_ok bs -> Forall b64_digit (b64_core bs).
Proof.
  revert bs; fix IH 1; intros [|a [|b [|c rest]]] H; unfold bytes_ok, is_u8 in H.
  - constructor.
  - apply Forall_cons_iff in H as [Ha _].
    cbn [b64_core]; repeat apply Forall_cons; try b64_digit_tac; constructor.
  - apply Forall_cons_iff in H as [Ha H]; apply Forall_cons_iff in H as [Hb _].
    cbn [b64_core]; repeat apply Forall_cons; try b64_digit_tac; constructor.
  - apply Forall_cons_iff in H as [Ha H]; apply Forall_cons_iff in H as [Hb H].
    apply Forall_cons_iff in H as [Hc H].
    cbn [b64_core]; repeat apply Forall_cons; try b64_digit_tac.
    apply IH, H.
Qed.

Lemma forgiving_base64_encode_core (bs : list Z) :
  forgiving_base64_encode bs = b64_core bs ++ repeat 61 (b64_pad bs).
Proof.
  revert bs; fix IH 1; intros [|a [|b [|c rest]]]; try reflexivity.
  cbn [forgiving_base64_encode b64_core b64_pad]; rewrite IH, app_assoc;
    reflexivity.
Qed.

Lemma b64_core_shape (bs : list Z) :
  exists k, (length (b64_core bs) = 4 * k /\ b64_pad bs = 0
             \/ length (b64_core bs) = 4 * k + 3 /\ b64_pad bs = 1
             \/ length (b64_core bs) = 4 * k + 2 /\ b64_pad bs = 2)%nat.
Proof.
  revert bs; fix IH 1; intros [|a [|b [|c rest]]].
  - exists 0%nat; left; auto.
  - exists 0%nat; right; right; auto.
  - exists 0%nat; right; left; auto.
  - destruct (IH rest) as [k Hk]; exists (S k).
    cbn [b64_core b64_pad]; rewrite length_app; simpl length; lia.
Qed.

Lemma forgiving_base64_encode_length (bs : list Z) :
  length (forgiving_base64_encode bs) = (4 * ((length bs + 2) / 3))%nat.
Proof.
  revert bs; fix IH 1; intros [|a [|b [|c rest]]]; try reflexivity.
  cbn [forgiving_base64_encode]; rewrite length_app, IH.
  cbn [length].
  replace (S (S (S (length rest))) + 2)%nat with ((length rest + 2) + 1 * 3)%nat
    by lia.
  rewrite Nat.div_add by lia; simpl length; lia.
Qed.

Lemma strip_padding_core (bs : list Z) :
  bytes_ok bs ->
  strip_padding (b64_core bs ++ repeat 61 (b64_pad bs)) = b64_core bs.
Proof.
  intros Hb; pose proof (b64_core_digits bs Hb) as Hd.
  assert (Hlast : forall x r, rev (b64_core bs) = x :: r -> (x =? 61) = false).
  { intros x r E; assert (Hin : In x (b64_core bs))
      by (apply in_rev; rewrite E; left; reflexivity).
    rewrite Forall_forall in Hd; destruct (Hd x Hin) as (v & Hv & ->).
    apply (b64_char_spec v Hv). }
  unfold strip_padding; rewrite length_app, repeat_length.
  destruct (b64_core_shape bs) as (k & [[L P] | [[L P] | [L P]]]);
    rewrite L, P.
  - replace (4 * k + 0)%nat with (k * 4)%nat by lia; rewrite Nat.Div0.mod_mul.
    simpl; rewrite app_nil_r.
    destruct (rev (b64_core bs)) as [|x [|y r]] eqn:E; try reflexivity;
      rewrite (Hlast _ _ eq_refl); reflexivity.
  - replace (4 * k + 3 + 1)%nat with ((k + 1) * 4)%nat by lia;
      rewrite Nat.Div0.mod_mul.
    simpl; rewrite rev_app_distr; simpl.
    destruct (rev (b64_core bs)) as [|y r] eqn:E.
    + apply (f_equal (@rev _)) in E; rewrite rev_involutive in E; rewrite E;
        reflexivity.
    + rewrite (Hlast _ _ eq_refl); change (rev r ++ [y]) with (rev (y :: r)).
      rewrite <- E, rev_involutive; reflexivity.
  - replace (4 * k + 2 + 2)%nat with ((k + 1) * 4)%nat by lia;
      rewrite Nat.Div0.mod_mul.
    simpl; rewrite rev_app_distr; simpl; rewrite rev_involutive; reflexivity.
Qed.

Ltac zdiv_lia := Z.to_euclidean_division_equations; lia.

(** Decoding the unpadded characters gives the bytes back, three at a time. *)
Lemma base64_decode_loop_core (bs : list Z) :
  bytes_ok bs -> base64_decode_loop (b64_core bs) 0 0 = bs.
Proof.
  revert bs; fix IH 1; intros [|a [|b [|c rest]]] H; unfold bytes_ok, is_u8 in H.
  - reflexivity.
  - apply Forall_cons_iff in H as [Ha _].
    cbn [b64_core base64_decode_loop Nat.eqb].
    rewrite !b64_value_char by zdiv_lia.
    f_equal; zdiv_lia.
  - apply Forall_cons_iff in H as [Ha H]; apply Forall_cons_iff in H as [Hb _].
    cbn [b64_core base64_decode_loop Nat.eqb].
    rewrite !b64_value_char by zdiv_lia.
    f_equal; [zdiv_lia | f_equal; zdiv_lia].
  - apply Forall_cons_iff in H as [Ha H]; apply Forall_cons_iff in H as [Hb H].
    apply Forall_cons_iff in H as [Hc H].
    cbn [b64_core app base64_decode_loop Nat.eqb].
    rewrite !b64_value_char by zdiv_lia.
    cbn [app]; rewrite (IH rest H).
    f_equal; [zdiv_lia | f_equal; [zdiv_lia | f_equal; zdiv_lia]].
Qed.

Lemma binary_of_array_bytes (b : Uint8Array) :
  bytes_ok b -> binary_of_array b = b.
Proof.
  induction 1 as [|x b Hx Hb IH]; simpl; [reflexivity|].
  unfold is_u8 in Hx; rewrite IH, Z.mod_small by lia; reflexivity.
Qed.

Lemma bytes_not_above_255 (b : Uint8Array) :
  bytes_ok b -> existsb (fun c => 255 <? c) b = false.
Proof.
  induction 1 as [|x b Hx Hb IH]; simpl; [reflexivity|].
  unfold is_u8 in Hx; rewrite IH, orb_false_r; apply Z.ltb_ge; lia.
Qed.

Lemma map_to_uint8_bytes (b : Uint8Array) : bytes_ok b -> map to_uint8 b = b.
Proof.
  induction 1 as [|x b Hx Hb IH]; simpl; [reflexivity|].
  rewrite to_uint8_u8, IH by exact Hx; reflexivity.
Qed.

Lemma b64_digits_facts (s : js_string) :
  Forall b64_digit s ->
  filter (fun c => negb (is_ascii_whitespace c)) s = s
  /\ forallb is_b64_char s = true.
Proof.
  induction 1 as [|c s (v & Hv & ->) _ [IH1 IH2]]; simpl; [auto|].
  destruct (b64_char_spec v Hv) as (Vv & _ & Wv).
  rewrite Wv, IH1, IH2; unfold is_b64_char; rewrite Vv; auto.
Qed.

Lemma forgiving_base64_decode_encode (bs : list Z) :
  bytes_ok bs ->
  forgiving_base64_decode (forgiving_base64_encode bs) = Some bs.
Proof.
  intros Hb; pose proof (b64_core_digits bs Hb) as Hd.
  destruct (b64_digits_facts _ Hd) as [Hws Hall].
  unfold forgiving_base64_decode; rewrite forgiving_base64_encode_core.
  rewrite filter_app, Hws.
  replace (filter (fun c => negb (is_ascii_whitespace c)) (repeat 61 (b64_pad bs)))
    with (repeat 61 (b64_pad bs))
    by (induction (b64_pad bs) as [|p IHp]; simpl; [reflexivity|]; rewrite <- IHp;
        reflexivity).
  rewrite strip_padding_core by exact Hb.
  destruct (b64_core_shape bs) as (k & Hk).
  replace (Nat.eqb (length (b64_core bs) mod 4) 1) with false.
  2:{ symmetry; apply Nat.eqb_neq.
      destruct Hk as [[L _] | [[L _] | [L _]]]; rewrite L.
      - replace (4 * k)%nat with (0 + k * 4)%nat by lia; rewrite Nat.Div0.mod_add;
          simpl; lia.
      - replace (4 * k + 3)%nat with (3 + k * 4)%nat by lia; rewrite Nat.Div0.mod_add;
          simpl; lia.
      - replace (4 * k + 2)%nat with (2 + k * 4)%nat by lia; rewrite Nat.Div0.mod_add;
          simpl; lia. }
  rewrite Hall; simpl; rewrite base64_decode_loop_core by exact Hb; reflexivity.
Qed.

(** ** Base64 codec *)

(** C5: [uint8ArrayToBase64] writes standard padded base64 without line
    breaks (four characters per three bytes, rounded up) and
    [base64ToUint8Array] decodes it back to the same bytes; the bytes of
    "Hello" encode to ["SGVsbG8="], which decodes back to them. *)
Theorem base64_roundtrip (b : Uint8Array) :
  bytes_ok b ->
  (exists s, uint8ArrayToBase64 b = Some s
             /\ base64ToUint8Array s = b
             /\ s = forgiving_base64_encode b
             /\ length s = (4 * ((length b + 2) / 3))%nat)
  /\ uint8ArrayToBase64 [72; 101; 108; 108; 111] = Some (js "SGVsbG8=")
  /\ base64ToUint8Array (js "SGVsbG8=") = [72; 101; 108; 108; 111].
Proof.
  intros Hb; split; [|split; reflexivity].
  exists (forgiving_base64_encode b).
  unfold uint8ArrayToBase64, btoa.
  rewrite binary_of_array_bytes, bytes_not_above_255 by exact Hb.
  split; [reflexivity|].
  split; [|split; [reflexivity | apply forgiving_base64_encode_length]].
  unfold base64ToUint8Array, atob.
  rewrite forgiving_base64_decode_encode by exact Hb.
  apply map_to_uint8_bytes, Hb.
Qed.

Lemma base64_roundtrip_witness :
  base64ToUint8Array (forgiving_base64_encode [255; 0; 250; 1]) = [255; 0; 250; 1].
Proof.
  destruct (base64_roundtrip [255; 0; 250; 1]) as [(s & E & D & -> & _) _];
    [repeat constructor; unfold is_u8; lia|].
  exact D.
Defined.

(** C8: [base64ToUint8Array] is total: on a string that [atob] rejects it
    returns the empty array instead of throwing, and the empty string also
    gives the empty array. *)
Theorem base64_decode_malformed_empty :
  (forall s, atob s = None -> base64ToUint8Array s = [])
  /\ base64ToUint8Array [] = [].
Proof.
  split; [|reflexivity].
  intros s E; unfold base64ToUint8Array; rewrite E; reflexivity.
Qed.

Lemma base64_decode_malformed_empty_witness :
  base64ToUint8Array (js "SGVsb$8=") = [] /\ base64ToUint8Array (js "abcde") = [].
Proof.
  split; apply (proj1 base64_decode_malformed_empty); vm_compute; reflexivity.
Defined.

Example text_examples :
  stringToUint8Array (uint8ArrayToString [0xC3; 0xA9; 0xF0; 0x9F; 0x98; 0x80])
    = [0xC3; 0xA9; 0xF0; 0x9F; 0x98; 0x80]
  /\ uint8ArrayToString [0xC3; 0xA9; 0xF0; 0x9F; 0x98; 0x80] = [0xE9; 0xD83D; 0xDE00]
  /\ uint8ArrayToString [0xFF] = js "[Binary Content]"
  /\ uint8ArrayToString [0xED; 0xA0; 0x80] = js "[Binary Content]"
  /\ stringToUint8Array [0xD800; 0x41] = [0xEF; 0xBF; 0xBD; 0x41]
  /\ uint8ArrayToString [0xEF; 0xBB; 0xBF; 0x41] = [0x41].
Proof. repeat split; reflexivity. Qed.

(** ** Lemmas on the text codec *)

Ltac bool_to_Z H :=
  repeat progress rewrite ?andb_true_iff, ?andb_false_iff, ?orb_true_iff,
    ?orb_false_iff, ?Z.leb_le, ?Z.leb_gt, ?Z.ltb_lt, ?Z.ltb_ge, ?Z.eqb_eq,
    ?Z.eqb_neq in H.

(** Settle the [if]s of the goal one at a time, outermost first, each
    condition free of further [if]s; branches refuted by arithmetic are
    closed on the way. *)
Ltac decide_Z :=
  repeat (unfold is_cont, in_range; match goal with
          | |- context [if ?c then _ else _] =>
              lazymatch c with
              | context [if _ then _ else _] => fail
              | _ => let H := fresh "Hc" in
                     destruct c eqn:H; bool_to_Z H; try (exfalso; zdiv_lia)
              end
          end; cbn [andb orb negb]).

Ltac cons_eq_lia :=
  repeat (apply (f_equal2 (@cons Z)); [zdiv_lia|]); reflexivity.

Ltac utf8_case cp IH :=
  destruct IH as (cps & D & Sc & E);
  exists (cp :: cps); cbn [utf8_decode]; decide_Z; rewrite D;
  split; [reflexivity|];
  split; [constructor; [unfold is_scalar; zdiv_lia | exact Sc]|];
  cbn [map concat]; rewrite E; unfold utf8_encode_cp; decide_Z; cbn [app];
  cons_eq_lia.

(** A well-formed UTF-8 sequence decodes, to scalar values that the encoder
    turns back into the same bytes. *)
Lemma utf8_decode_valid (b : list Z) :
  valid_utf8 b ->
  exists cps, utf8_decode b = Some cps /\ Forall is_scalar cps
              /\ concat (map utf8_encode_cp cps) = b.
Proof.
  induction 1 as [| b0 rest H0 _ IH | b0 b1 rest H0 H1 _ IH
                  | b1 b2 rest H1 H2 _ IH | b0 b1 b2 rest H0 H1 H2 _ IH
                  | b1 b2 rest H1 H2 _ IH | b0 b1 b2 rest H0 H1 H2 _ IH
                  | b1 b2 b3 rest H1 H2 H3 _ IH | b0 b1 b2 b3 rest H0 H1 H2 H3 _ IH
                  | b1 b2 b3 rest H1 H2 H3 _ IH].
  - exists []; repeat split; constructor.
  - utf8_case b0 IH.
  - utf8_case ((b0 mod 32) * 64 + b1 mod 64) IH.
  - utf8_case (((0xE0 mod 16) * 64 + b1 mod 64) * 64 + b2 mod 64) IH.
  - utf8_case (((b0 mod 16) * 64 + b1 mod 64) * 64 + b2 mod 64) IH.
  - utf8_case (((0xED mod 16) * 64 + b1 mod 64) * 64 + b2 mod 64) IH.
  - utf8_case (((b0 mod 16) * 64 + b1 mod 64) * 64 + b2 mod 64) IH.
  - utf8_case ((((0xF0 mod 8) * 64 + b1 mod 64) * 64 + b2 mod 64) * 64 + b3 mod 64) IH.
  - utf8_case ((((b0 mod 8) * 64 + b1 mod 64) * 64 + b2 mod 64) * 64 + b3 mod 64) IH.
  - utf8_case ((((0xF4 mod 8) * 64 + b1 mod 64) * 64 + b2 mod 64) * 64 + b3 mod 64) IH.
Qed.

(** Scalar values survive the trip through UTF-16 code units. *)
Lemma scalar_values_to_js_string (cps : list Z) :
  Forall is_scalar cps -> scalar_values (to_js_string cps) = cps.
Proof.
  induction 1 as [|c cps Hc _ IH]; [reflexivity|].
  unfold is_scalar in Hc.
  change (to_js_string (c :: cps)) with (utf16_units c ++ to_js_string cps).
  unfold utf16_units; destruct (Z.ltb_spec c 0x10000); cbn [app scalar_values];
    unfold is_high_surrogate, is_low_surrogate; decide_Z; rewrite IH;
    [reflexivity|].
  f_equal; zdiv_lia.
Qed.

Lemma utf8_encode_bom (c : Z) (r : list Z) :
  is_scalar c -> has_utf8_bom (utf8_encode_cp c ++ r) = (c =? 0xFEFF).
Proof.
  unfold is_scalar; intros Hc; destruct (Z.eqb_spec c 0xFEFF) as [->|Hne];
    [reflexivity|].
  apply not_true_iff_false; intros H.
  unfold utf8_encode_cp in H; revert H; decide_Z; cbn [app has_utf8_bom];
    intros H; bool_to_Z H; zdiv_lia.
Qed.

(** ** Text codec *)

(** C7 (as the code behaves): for a well-formed UTF-8 sequence [b], the
    text round trip gives [b] back, except that a leading byte order mark
    EF BB BF is dropped by the decoder: then the result is [b] without its
    first three bytes. *)
Theorem text_roundtrip_valid_utf8 (b : Uint8Array) :
  valid_utf8 b ->
  stringToUint8Array (uint8ArrayToString b)
  = if has_utf8_bom b then skipn 3 b else b.
Proof.
  intros Hv; destruct (utf8_decode_valid b Hv) as (cps & D & Sc & E).
  unfold uint8ArrayToString, text_decoder_decode_fatal; rewrite D; cbn [option_map].
  unfold stringToUint8Array, text_encoder_encode.
  destruct cps as [|c cps]; [subst; reflexivity|].
  apply Forall_cons_iff in Sc as [Hc Sc].
  rewrite <- E; cbn [map concat]; rewrite utf8_encode_bom by exact Hc.
  unfold strip_bom; destruct (Z.eqb_spec c 0xFEFF) as [->|Hne].
  - rewrite scalar_values_to_js_string by exact Sc; reflexivity.
  - rewrite scalar_values_to_js_string by (constructor; assumption); reflexivity.
Qed.

Lemma text_roundtrip_valid_utf8_witness :
  stringToUint8Array (uint8ArrayToString [0xC3; 0xA9; 0xEF; 0xBB; 0xBF])
  = [0xC3; 0xA9; 0xEF; 0xBB; 0xBF].
Proof.
  apply (text_roundtrip_valid_utf8 [0xC3; 0xA9; 0xEF; 0xBB; 0xBF]).
  apply valid_2; [lia | lia |].
  apply valid_3_EE_EF; [lia | lia | lia | constructor].
Defined.

(** C7 as stated fails: the three bytes EF BB BF are well-formed UTF-8
    (U+FEFF), yet the text round trip returns the empty sequence. *)
Lemma text_roundtrip_bom_counterexample :
  valid_utf8 [0xEF; 0xBB; 0xBF]
  /\ stringToUint8Array (uint8ArrayToString [0xEF; 0xBB; 0xBF]) = []
  /\ stringToUint8Array (uint8ArrayToString [0xEF; 0xBB; 0xBF]) <> [0xEF; 0xBB; 0xBF].
Proof.
  split; [apply valid_3_EE_EF; [lia | lia | lia | constructor]|].
  split; [reflexivity | vm_compute; discriminate].
Qed.

Example app_examples :
  handleModeSwitch Hex (js "48656c6c6f") Text = Some (Text, js "Hello")
  /\ handleModeSwitch Hex (js "ff00") Text = Some (Text, [])
  /\ handleModeSwitch Text (js "Hello") Base64 = Some (Base64, js "SGVsbG8=")
  /\ downloadName DECRYPT (js "a.txt.xor") = js "a.txt"
  /\ downloadName DECRYPT (js "a.bin") = js "decrypted_a.bin"
  /\ handleGenerate Text [0xFF; 0x41] = Some binary_content
  /\ handleGenerate Text [0xC3; 0xA9; 0x41; 0x0A] = Some (js "?A?")
  /\ processFile (Some {| file_name := js "f"; file_contents := Some [1; 2] |})
       (keyBytes Base64 (js "abcde")) = Failed (js "Please provide a valid key.").
Proof. repeat split; reflexivity. Qed.

(** ** Lemmas on the key field and on file processing *)

Lemma to_uint8_is_u8 (x : Z) : is_u8 (to_uint8 x).
Proof. unfold is_u8, to_uint8; zdiv_lia. Qed.

Lemma hexToUint8Array_bytes (s : js_string) : bytes_ok (hexToUint8Array s).
Proof.
  unfold hexToUint8Array; destruct (match_dot12 (strip_non_hex s)) as [m|];
    [|constructor].
  apply Forall_forall; intros x Hx; apply in_map_iff in Hx as (ch & <- & _).
  destruct (parseInt16 ch); [apply to_uint8_is_u8 | unfold is_u8; simpl; lia].
Qed.

Lemma base64ToUint8Array_bytes (s : js_string) : bytes_ok (base64ToUint8Array s).
Proof.
  unfold base64ToUint8Array; destruct (atob s) as [bin|]; [|constructor].
  apply Forall_forall; intros x Hx; apply in_map_iff in Hx as (c & <- & _).
  apply to_uint8_is_u8.
Qed.

(** The code points of a JavaScript string are scalar values: surrogate
    pairs are combined, lone surrogates replaced by U+FFFD. *)
Lemma scalar_values_scalar (s : js_string) :
  js_string_ok s -> Forall is_scalar (scalar_values s).
Proof.
  revert s; fix IH 1; intros [|c rest] Hs; [constructor|].
  apply Forall_cons_iff in Hs as [Hc Hr]; cbn [scalar_values].
  unfold is_high_surrogate, is_low_surrogate, is_scalar.
  destruct (in_range 0xD800 0xDBFF c) eqn:H1; unfold in_range in H1; bool_to_Z H1.
  - destruct rest as [|d rest'] eqn:Er.
    + repeat constructor; lia.
    + apply Forall_cons_iff in Hr as Hr'; destruct Hr' as [Hd Hr'].
      destruct (in_range 0xDC00 0xDFFF d) eqn:H2; unfold in_range in H2; bool_to_Z H2.
      * constructor; [lia | apply IH, Hr'].
      * constructor; [lia | rewrite <- Er; apply IH; rewrite Er; exact Hr].
  - destruct (in_range 0xDC00 0xDFFF c) eqn:H2; unfold in_range in H2; bool_to_Z H2.
    + constructor; [lia | apply IH, Hr].
    + constructor; [lia | apply IH, Hr].
Qed.

Lemma utf8_encode_cp_bytes (c : Z) : is_scalar c -> bytes_ok (utf8_encode_cp c).
Proof.
  unfold is_scalar, bytes_ok, is_u8, utf8_encode_cp; intros Hc.
  decide_Z; repeat constructor; zdiv_lia.
Qed.

Lemma stringToUint8Array_bytes (s : js_string) :
  js_string_ok s -> bytes_ok (stringToUint8Array s).
Proof.
  intros Hs; pose proof (scalar_values_scalar s Hs) as Sc.
  unfold stringToUint8Array, text_encoder_encode.
  induction Sc as [|c cps Hc _ IH]; [constructor|].
  cbn [map concat]; apply Forall_app; split; [apply utf8_encode_cp_bytes, Hc | exact IH].
Qed.

Lemma keyBytes_bytes (mode : KeyMode) (v : js_string) :
  js_string_ok v -> bytes_ok (keyBytes mode v).
Proof.
  intros Hv; destruct mode; simpl;
    [apply hexToUint8Array_bytes | apply stringToUint8Array_bytes, Hv
    | apply base64ToUint8Array_bytes].
Qed.

Lemma hex_decode_encode (b : Uint8Array) :
  bytes_ok b -> hexToUint8Array (uint8ArrayToHex b) = b.
Proof.
  intros Hb; destruct (uint8ArrayToHex_pairs b Hb) as [Hall Hch].
  rewrite hexToUint8Array_chunks, strip_non_hex_id, Hch by exact Hall.
  rewrite map_map; clear Hall Hch.
  induction Hb as [|x b Hx Hb IH]; simpl; [reflexivity|].
  destruct (hex_pair_spec x Hx) as (c & d & E & _ & _ & _ & _ & P & _).
  rewrite E, P, IH; simpl; rewrite to_uint8_u8 by exact Hx; reflexivity.
Qed.

Lemma uint8ArrayToHex_length (b : Uint8Array) :
  bytes_ok b -> length (uint8ArrayToHex b) = (2 * length b)%nat.
Proof.
  unfold uint8ArrayToHex; fold hex_pair.
  induction 1 as [|x b Hx Hb IH]; [reflexivity|].
  destruct (hex_pair_spec x Hx) as (c & d & E & _).
  cbn [map concat]; rewrite length_app, E, IH; simpl; lia.
Qed.

Lemma uint8ArrayToBase64_bytes (b : Uint8Array) :
  bytes_ok b -> uint8ArrayToBase64 b = Some (forgiving_base64_encode b).
Proof.
  intros Hb; unfold uint8ArrayToBase64, btoa.
  rewrite binary_of_array_bytes, bytes_not_above_255 by exact Hb; reflexivity.
Qed.

Lemma base64_decode_encode (b : Uint8Array) :
  bytes_ok b -> base64ToUint8Array (forgiving_base64_encode b) = b.
Proof.
  intros Hb; unfold base64ToUint8Array, atob.
  rewrite forgiving_base64_decode_encode by exact Hb.
  apply map_to_uint8_bytes, Hb.
Qed.

Lemma text_decode_encode (b : Uint8Array) :
  valid_utf8 b ->
  stringToUint8Array (uint8ArrayToString b)
  = if has_utf8_bom b then skipn 3 b else b.
Proof.
  intros Hv; destruct (utf8_decode_valid b Hv) as (cps & D & Sc & E).
  unfold uint8ArrayToString, text_decoder_decode_fatal; rewrite D; cbn [option_map].
  unfold stringToUint8Array, text_encoder_encode.
  destruct cps as [|c cps]; [subst; reflexivity|].
  apply Forall_cons_iff in Sc as [Hc Sc].
  rewrite <- E; cbn [map concat]; rewrite utf8_encode_bom by exact Hc.
  unfold strip_bom; destruct (Z.eqb_spec c 0xFEFF) as [->|Hne].
  - rewrite scalar_values_to_js_string by exact Sc; reflexivity.
  - rewrite scalar_values_to_js_string by (constructor; assumption); reflexivity.
Qed.

(** The decoder reads back what the encoder writes for one scalar value. *)
Lemma utf8_decode_encode_cp (c : Z) (r : list Z) :
  is_scalar c ->
  utf8_decode (utf8_encode_cp c ++ r) = option_map (cons c) (utf8_decode r).
Proof.
  unfold is_scalar; intros Hc.
  unfold utf8_encode_cp; decide_Z; cbn [app utf8_decode]; decide_Z;
    destruct (utf8_decode r); cbn [option_map]; try reflexivity;
    f_equal; f_equal; zdiv_lia.
Qed.

(** Pick the row of Table 3-7 that an encoded sequence falls in. *)
Ltac utf8_side Hr := first [exact Hr | zdiv_lia].

Ltac utf8_lead v :=
  match goal with
  | |- valid_utf8 (?x :: _) => replace x with v by zdiv_lia
  end.

Ltac utf8_row Hr :=
  first
  [ solve [apply valid_1; utf8_side Hr]
  | solve [apply valid_2; utf8_side Hr]
  | solve [utf8_lead 0xE0; apply valid_3_E0; utf8_side Hr]
  | solve [apply valid_3_E1_EC; utf8_side Hr]
  | solve [utf8_lead 0xED; apply valid_3_ED; utf8_side Hr]
  | solve [apply valid_3_EE_EF; utf8_side Hr]
  | solve [utf8_lead 0xF0; apply valid_4_F0; utf8_side Hr]
  | solve [apply valid_4_F1_F3; utf8_side Hr]
  | solve [utf8_lead 0xF4; apply valid_4_F4; utf8_side Hr] ].

Lemma utf8_encode_cp_valid (c : Z) (r : list Z) :
  is_scalar c -> valid_utf8 r -> valid_utf8 (utf8_encode_cp c ++ r).
Proof.
  unfold is_scalar; intros Hc Hr.
  destruct (Z.lt_ge_cases c 0x1000), (Z.lt_ge_cases c 0xD000),
    (Z.lt_ge_cases c 0xE000), (Z.lt_ge_cases c 0x40000),
    (Z.lt_ge_cases c 0x100000); try lia;
  unfold utf8_encode_cp; decide_Z; cbn [app]; utf8_row Hr.
Qed.

Lemma xorBuffer_nth (b k : Uint8Array) :
  k <> [] -> bytes_ok b -> bytes_ok k ->
  length (xorBuffer b k) = length b
  /\ (forall i, (i < length b)%nat ->
        nth i (xorBuffer b k) 0 = Z.lxor (nth i b 0) (nth (i mod length k) k 0)).
Proof.
  intros Hk Hb Hkb; unfold xorBuffer.
  destruct (Nat.eqb_spec (length k) 0) as [E|E].
  { apply length_zero_iff_nil in E; contradiction. }
  split; [apply xor_loop_length|].
  intros i Hi; rewrite xor_loop_nth by exact Hi; simpl.
  apply to_uint8_u8, lxor_u8; [|apply nth_u8, Hkb].
  apply (nth_u8 b i Hb).
Qed.

Lemma xorBuffer_bytes (b k : Uint8Array) : bytes_ok b -> bytes_ok (xorBuffer b k).
Proof.
  intros Hb; unfold xorBuffer; destruct (Nat.eqb (length k) 0); [exact Hb|].
  clear Hb; generalize 0%nat; induction b as [|x b IH]; intros i; simpl;
    constructor; [apply to_uint8_is_u8 | apply IH].
Qed.

Lemma xor_loop_app (k : Uint8Array) (n i : nat) (b1 b2 : Uint8Array) :
  xor_loop k n i (b1 ++ b2) = xor_loop k n i b1 ++ xor_loop k n (i + length b1) b2.
Proof.
  revert i; induction b1 as [|x b1 IH]; intros i; simpl.
  - rewrite Nat.add_0_r; reflexivity.
  - rewrite IH, <- plus_n_Sm; reflexivity.
Qed.

(** Two loops that read the same key byte at every position agree. *)
Lemma xor_loop_ext (k k' : Uint8Array) (n n' i i' : nat) (b : Uint8Array) :
  (forall t, nth ((i + t) mod n) k 0 = nth ((i' + t) mod n') k' 0) ->
  xor_loop k n i b = xor_loop k' n' i' b.
Proof.
  revert i i'; induction b as [|x b IH]; intros i i' H; simpl; [reflexivity|].
  pose proof (H 0%nat) as H0; rewrite !Nat.add_0_r in H0; rewrite H0.
  f_equal; apply IH; intros t.
  replace (S i + t)%nat with (i + S t)%nat by lia.
  replace (S i' + t)%nat with (i' + S t)%nat by lia.
  apply H.
Qed.

(** Reading the key from offset [r] is reading the key rotated by [r]. *)
Lemma nth_rotate (k : Uint8Array) (r t : nat) :
  (r < length k)%nat ->
  nth ((r + t) mod length k) k 0
  = nth ((0 + t) mod length k) (skipn r k ++ firstn r k) 0.
Proof.
  intros Hr; set (n := length k) in *; simpl Nat.add.
  assert (Hn : n <> 0%nat) by lia.
  pose proof (Nat.mod_upper_bound t n Hn) as Hu.
  rewrite <- (Nat.Div0.add_mod_idemp_r r t n).
  set (u := (t mod n)%nat) in *.
  destruct (Nat.lt_ge_cases u (n - r)) as [L|L].
  - rewrite app_nth1 by (rewrite length_skipn; lia).
    rewrite nth_skipn, Nat.mod_small by lia; reflexivity.
  - rewrite app_nth2 by (rewrite length_skipn; lia).
    rewrite length_skipn, nth_firstn; change (length k) with n.
    replace (u - (n - r) <? r)%nat with true by (symmetry; apply Nat.ltb_lt; lia).
    replace (r + u)%nat with ((u - (n - r)) + 1 * n)%nat by lia.
    rewrite Nat.Div0.mod_add, Nat.mod_small by lia; reflexivity.
Qed.

Lemma filter_idem {A} (f : A -> bool) (l : list A) : filter f (filter f l) = filter f l.
Proof.
  induction l as [|x l IH]; simpl; [reflexivity|].
  destruct (f x) eqn:E; simpl; [rewrite E, IH|]; auto.
Qed.

(** [atob] looks only at the characters that are not ASCII whitespace. *)
Lemma forgiving_base64_decode_filter (s : js_string) :
  forgiving_base64_decode s
  = forgiving_base64_decode (filter (fun c => negb (is_ascii_whitespace c)) s).
Proof. unfold forgiving_base64_decode; rewrite filter_idem; reflexivity. Qed.

(** Base64 without its [=] padding decodes as well. *)
Lemma forgiving_base64_decode_core (bs : list Z) :
  bytes_ok bs -> forgiving_base64_decode (b64_core bs) = Some bs.
Proof.
  intros Hb; pose proof (b64_core_digits bs Hb) as Hd.
  destruct (b64_digits_facts _ Hd) as [Hws Hall].
  assert (Hstrip : strip_padding (b64_core bs) = b64_core bs).
  { destruct (b64_core_shape bs) as (k & [[L P] | [[L P] | [L P]]]).
    - pose proof (strip_padding_core bs Hb) as S; rewrite P in S;
        rewrite app_nil_r in S; exact S.
    - unfold strip_padding; rewrite L.
      replace (4 * k + 3)%nat with (3 + k * 4)%nat by lia;
        rewrite Nat.Div0.mod_add; reflexivity.
    - unfold strip_padding; rewrite L.
      replace (4 * k + 2)%nat with (2 + k * 4)%nat by lia;
        rewrite Nat.Div0.mod_add; reflexivity. }
  unfold forgiving_base64_decode; rewrite Hws, Hstrip.
  destruct (b64_core_shape bs) as (k & Hk).
  replace (Nat.eqb (length (b64_core bs) mod 4) 1) with false.
  2:{ symmetry; apply Nat.eqb_neq.
      destruct Hk as [[L _] | [[L _] | [L _]]]; rewrite L.
      - replace (4 * k)%nat with (0 + k * 4)%nat by lia; rewrite Nat.Div0.mod_add;
          simpl; lia.
      - replace (4 * k + 3)%nat with (3 + k * 4)%nat by lia; rewrite Nat.Div0.mod_add;
          simpl; lia.
      - replace (4 * k + 2)%nat with (2 + k * 4)%nat by lia; rewrite Nat.Div0.mod_add;
          simpl; lia. }
  rewrite Hall; simpl; rewrite base64_decode_loop_core by exact Hb; reflexivity.
Qed.

Lemma utf8_decode_encode (cps : list Z) :
  Forall is_scalar cps -> utf8_decode (concat (map utf8_encode_cp cps)) = Some cps.
Proof.
  induction 1 as [|c cps Hc _ IH]; [reflexivity|].
  cbn [map concat]; rewrite utf8_decode_encode_cp, IH by exact Hc; reflexivity.
Qed.

Lemma stringToUint8Array_to_js_string (cps : list Z) :
  Forall is_scalar cps ->
  stringToUint8Array (to_js_string cps) = concat (map utf8_encode_cp cps).
Proof.
  intros Sc; unfold stringToUint8Array, text_encoder_encode.
  rewrite scalar_values_to_js_string by exact Sc; reflexivity.
Qed.

Lemma encode_scalars_bytes (cps : list Z) :
  Forall is_scalar cps -> bytes_ok (concat (map utf8_encode_cp cps)).
Proof.
  induction 1 as [|c cps Hc _ IH]; [constructor|].
  cbn [map concat]; apply Forall_app; split; [apply utf8_encode_cp_bytes, Hc | exact IH].
Qed.

Lemma printable_encode (v : js_string) :
  Forall (fun c => 0x20 <= c <= 0x7E) v -> stringToUint8Array v = v.
Proof.
  unfold stringToUint8Array, text_encoder_encode.
  induction 1 as [|c v Hc _ IH]; [reflexivity|].
  cbn [scalar_values]; unfold is_high_surrogate, is_low_surrogate; decide_Z.
  cbn [map concat]; rewrite IH; unfold utf8_encode_cp; decide_Z; reflexivity.
Qed.

Ltac js_ok :=
  unfold js_string_ok, js; simpl; repeat (apply Forall_cons; [lia|]); apply Forall_nil.

(** ** The key field *)

(** Switching the key field to hex mode keeps the key: the hex text written
    into the field decodes to the bytes the field held before. *)
Theorem handleModeSwitch_to_hex (mode : KeyMode) (v : js_string) :
  js_string_ok v ->
  exists v', handleModeSwitch mode v Hex = Some (Hex, v')
             /\ keyBytes Hex v' = keyBytes mode v.
Proof.
  intros Hv; destruct mode.
  - exists v; split; reflexivity.
  - eexists; split; [reflexivity|].
    exact (hex_decode_encode _ (keyBytes_bytes Text v Hv)).
  - eexists; split; [reflexivity|].
    exact (hex_decode_encode _ (keyBytes_bytes Base64 v Hv)).
Qed.

Lemma handleModeSwitch_to_hex_witness :
  exists v', handleModeSwitch Text (js "Hello") Hex = Some (Hex, v')
             /\ keyBytes Hex v' = keyBytes Text (js "Hello").
Proof. apply handleModeSwitch_to_hex; js_ok. Defined.

(** Switching the key field to base64 mode keeps the key and never throws:
    the base64 text written into the field decodes to the bytes the field
    held before. *)
Theorem handleModeSwitch_to_base64 (mode : KeyMode) (v : js_string) :
  js_string_ok v ->
  exists v', handleModeSwitch mode v Base64 = Some (Base64, v')
             /\ keyBytes Base64 v' = keyBytes mode v.
Proof.
  intros Hv; destruct mode.
  3:{ exists v; split; reflexivity. }
  all: match goal with
       | |- exists _, handleModeSwitch ?m ?w _ = _ /\ _ =>
           exists (forgiving_base64_encode (keyBytes m w))
       end; split;
    [ unfold handleModeSwitch; cbn [KeyMode_eqb];
      rewrite uint8ArrayToBase64_bytes by (apply keyBytes_bytes, Hv); reflexivity
    | apply base64_decode_encode, keyBytes_bytes, Hv ].
Qed.

Lemma handleModeSwitch_to_base64_witness :
  exists v', handleModeSwitch Hex (js "48656c6c6f") Base64 = Some (Base64, v')
             /\ keyBytes Base64 v' = keyBytes Hex (js "48656c6c6f").
Proof. apply handleModeSwitch_to_base64; js_ok. Defined.

(** Switching the key field to text mode keeps the key when its bytes are
    well-formed UTF-8, do not begin with a byte order mark and are not the
    bytes of the text "[Binary Content]". *)
Theorem handleModeSwitch_to_text (mode : KeyMode) (v : js_string) :
  valid_utf8 (keyBytes mode v) ->
  has_utf8_bom (keyBytes mode v) = false ->
  keyBytes mode v <> binary_content ->
  exists v', handleModeSwitch mode v Text = Some (Text, v')
             /\ keyBytes Text v' = keyBytes mode v.
Proof.
  intros Hv Hbom Hbin.
  pose proof (text_decode_encode _ Hv) as R; rewrite Hbom in R.
  destruct mode.
  2:{ exists v; split; reflexivity. }
  all: match goal with
       | |- exists _, handleModeSwitch ?m ?w _ = _ /\ _ =>
           exists (uint8ArrayToString (keyBytes m w))
       end; split;
    [ unfold handleModeSwitch; cbn [KeyMode_eqb];
      match goal with
      | |- context [list_eq_dec Z.eq_dec ?x binary_content] =>
          destruct (list_eq_dec Z.eq_dec x binary_content) as [E|_]; [|reflexivity]
      end;
      exfalso; apply Hbin; rewrite <- R, E; reflexivity
    | exact R ].
Qed.

Lemma handleModeSwitch_to_text_witness :
  exists v', handleModeSwitch Hex (js "c3a9") Text = Some (Text, v')
             /\ keyBytes Text v' = keyBytes Hex (js "c3a9").
Proof.
  apply handleModeSwitch_to_text;
    [ vm_compute; apply valid_2; [lia | lia | constructor]
    | reflexivity | vm_compute; discriminate ].
Defined.

(** Switching the key field to text mode empties it when its bytes are not
    well-formed UTF-8, and also when they are the bytes of the text
    "[Binary Content]". *)
Theorem handleModeSwitch_to_text_clears (mode : KeyMode) (v : js_string) :
  mode <> Text ->
  utf8_decode (keyBytes mode v) = None \/ keyBytes mode v = binary_content ->
  handleModeSwitch mode v Text = Some (Text, []).
Proof.
  intros Hm H.
  assert (S : uint8ArrayToString (keyBytes mode v) = binary_content).
  { destruct H as [H|H].
    - unfold uint8ArrayToString, text_decoder_decode_fatal; rewrite H; reflexivity.
    - rewrite H; reflexivity. }
  destruct mode; [| congruence |];
    unfold handleModeSwitch; cbn [KeyMode_eqb]; rewrite S;
    destruct (list_eq_dec Z.eq_dec binary_content binary_content) as [_|N];
    [reflexivity | congruence | reflexivity | congruence].
Qed.

Lemma handleModeSwitch_to_text_clears_witness :
  handleModeSwitch Hex (js "ff") Text = Some (Text, [])
  /\ handleModeSwitch Base64 (js "W0JpbmFyeSBDb250ZW50XQ==") Text = Some (Text, []).
Proof.
  split; apply handleModeSwitch_to_text_clears;
    [ discriminate | left; reflexivity | discriminate | right; reflexivity ].
Defined.

(** In hex and base64 mode, the generated value of the key field holds
    exactly the random key that was drawn. *)
Theorem handleGenerate_keeps_key (mode : KeyMode) (newKey : Uint8Array) :
  bytes_ok newKey -> mode <> Text ->
  exists v, handleGenerate mode newKey = Some v /\ keyBytes mode v = newKey.
Proof.
  intros Hk Hm; destruct mode; [| congruence |].
  - eexists; split; [reflexivity | apply hex_decode_encode, Hk].
  - exists (forgiving_base64_encode newKey); split;
      [apply uint8ArrayToBase64_bytes, Hk | apply base64_decode_encode, Hk].
Qed.

Lemma handleGenerate_keeps_key_witness :
  exists v, handleGenerate Base64 [255; 0; 200; 3] = Some v
            /\ keyBytes Base64 v = [255; 0; 200; 3].
Proof.
  apply handleGenerate_keeps_key; [repeat constructor; unfold is_u8; lia | discriminate].
Defined.

(** In text mode, the generated value of the key field consists of printable
    ASCII characters only (0x20 to 0x7E), and the key it gives is these
    characters' codes, one byte each. *)
Theorem handleGenerate_text_printable (newKey : Uint8Array) :
  exists v, handleGenerate Text newKey = Some v
            /\ Forall (fun c => 0x20 <= c <= 0x7E) v
            /\ keyBytes Text v = v.
Proof.
  assert (P : Forall (fun c => 0x20 <= c <= 0x7E)
                (replace_non_printable (uint8ArrayToString newKey))).
  { unfold replace_non_printable; apply Forall_forall; intros c Hc.
    apply in_map_iff in Hc as (x & <- & _).
    unfold in_range; destruct (0x20 <=? x) eqn:E1, (x <=? 0x7E) eqn:E2;
      cbn [andb]; bool_to_Z E1; bool_to_Z E2; lia. }
  eexists; split; [reflexivity|]; split; [exact P | apply printable_encode, P].
Qed.

(** In text mode, every random key that is not well-formed UTF-8 gives the
    same field value, the text "[Binary Content]", whose key is the 16 bytes
    of that text. *)
Theorem handleGenerate_text_binary (newKey : Uint8Array) :
  utf8_decode newKey = None ->
  handleGenerate Text newKey = Some binary_content
  /\ keyBytes Text binary_content = binary_content.
Proof.
  intros H; split; [|reflexivity].
  unfold handleGenerate, uint8ArrayToString, text_decoder_decode_fatal.
  rewrite H; reflexivity.
Qed.

Lemma handleGenerate_text_binary_witness :
  handleGenerate Text [0x9A; 0x10; 0xFE; 0x33] = Some binary_content.
Proof. apply handleGenerate_text_binary; reflexivity. Defined.

(** ** File processing *)

(** Processing is refused with "Please provide a valid key." when the key
    field is empty, holds no hex digit in hex mode, or is rejected by
    [atob] in base64 mode. *)
Theorem processFile_rejects_empty_key (file : option File) (mode : KeyMode)
  (v : js_string) :
  v = [] \/ (mode = Hex /\ strip_non_hex v = []) \/ (mode = Base64 /\ atob v = None) ->
  processFile file (keyBytes mode v) = Failed (js "Please provide a valid key.").
Proof.
  intros H.
  assert (E : keyBytes mode v = []).
  { destruct H as [-> | [[-> S] | [-> A]]].
    - destruct mode; reflexivity.
    - unfold keyBytes, hexToUint8Array; rewrite S; reflexivity.
    - unfold keyBytes, base64ToUint8Array; rewrite A; reflexivity. }
  rewrite E; destruct file; reflexivity.
Qed.

Lemma processFile_rejects_empty_key_witness :
  processFile (Some {| file_name := js "a.txt"; file_contents := Some [1; 2; 3] |})
    (keyBytes Hex (js "zz-zz")) = Failed (js "Please provide a valid key.").
Proof.
  apply processFile_rejects_empty_key; right; left; split; reflexivity.
Defined.

(** Processing the result of processing again, with the same key field,
    gives back the original file contents. *)
Theorem processFile_roundtrip (mode : KeyMode) (v : js_string)
  (name name' : js_string) (contents out : Uint8Array) :
  js_string_ok v -> bytes_ok contents ->
  processFile (Some {| file_name := name; file_contents := Some contents |})
    (keyBytes mode v) = Processed out ->
  processFile (Some {| file_name := name'; file_contents := Some out |})
    (keyBytes mode v) = Processed contents.
Proof.
  intros Hv Hc; pose proof (keyBytes_bytes mode v Hv) as Hk.
  set (kb := keyBytes mode v) in *; unfold processFile; cbn [file_contents].
  destruct (Nat.eqb_spec (length kb) 0) as [E|E]; [discriminate|].
  intros R; injection R as <-; f_equal.
  unfold xorBuffer; destruct (Nat.eqb_spec (length kb) 0) as [E'|_]; [lia|].
  apply xor_loop_involutive; assumption.
Qed.

Lemma processFile_roundtrip_witness :
  processFile (Some {| file_name := js "a.txt";
                       file_contents := Some [72; 101; 108; 108; 111] |})
    (keyBytes Text (js "key")) = Processed [35; 0; 21; 7; 10]
  /\ processFile (Some {| file_name := js "a.txt.xor";
                          file_contents := Some [35; 0; 21; 7; 10] |})
       (keyBytes Text (js "key")) = Processed [72; 101; 108; 108; 111].
Proof.
  split; [reflexivity|].
  apply (processFile_roundtrip Text (js "key") (js "a.txt"));
    [js_ok | repeat constructor; unfold is_u8; lia | reflexivity].
Defined.

(** The name offered for a decrypted file undoes the name given to the
    encrypted one: decrypting [name ++ ".xor"] offers [name]. *)
Theorem downloadName_roundtrip (name : js_string) :
  downloadName DECRYPT (downloadName ENCRYPT name) = name.
Proof.
  cbn [downloadName]; unfold endsWith, slice_drop_end.
  set (x := js ".xor").
  assert (Lx : length x = 4%nat) by reflexivity.
  assert (L : length (name ++ x) = (length name + 4)%nat)
    by (rewrite (length_app name x), Lx; reflexivity).
  rewrite L, Lx, Nat.add_sub, (skipn_app (length name) name x), skipn_all,
    Nat.sub_diag.
  destruct (list_eq_dec Z.eq_dec ([] ++ skipn 0 x) x) as [_|N];
    [|exfalso; apply N; reflexivity].
  replace (4 <=? length name + 4)%nat with true by (symmetry; apply Nat.leb_le; lia).
  rewrite (firstn_app (length name) name x), firstn_all, Nat.sub_diag.
  apply app_nil_r.
Qed.

(** The header sent for analysis has two hex digits per byte of the first
    128 bytes of the file (or of the whole file when it is shorter), and
    decodes back to these bytes. *)
Theorem headerHex_spec (contents : Uint8Array) :
  bytes_ok contents ->
  length (headerHex contents) = (2 * Nat.min 128 (length contents))%nat
  /\ hexToUint8Array (headerHex contents) = firstn 128 contents.
Proof.
  intros Hc; pose proof (Forall_firstn _ 128 _ Hc) as Hf.
  unfold headerHex; split.
  - rewrite uint8ArrayToHex_length, length_firstn by exact Hf; reflexivity.
  - apply hex_decode_encode, Hf.
Qed.

Lemma headerHex_spec_witness :
  length (headerHex (repeat 7 200)) = 256%nat
  /\ hexToUint8Array (headerHex (repeat 7 200)) = repeat 7 128.
Proof.
  destruct (headerHex_spec (repeat 7 200)) as [L D];
    [apply Forall_forall; intros x Hx; apply repeat_spec in Hx; subst;
     unfold is_u8; lia|].
  split; [exact L | rewrite D; reflexivity].
Defined.

(** ** [xorBuffer] *)

(** Encrypting with two keys one after the other gives the same bytes in
    either order. *)
Theorem xorBuffer_comm (b k1 k2 : Uint8Array) :
  bytes_ok b -> bytes_ok k1 -> bytes_ok k2 ->
  xorBuffer (xorBuffer b k1) k2 = xorBuffer (xorBuffer b k2) k1.
Proof.
  intros Hb H1 H2.
  destruct k1 as [|x1 r1] eqn:E1; [reflexivity|].
  destruct k2 as [|x2 r2] eqn:E2; [reflexivity|].
  rewrite <- E1, <- E2 in *.
  assert (N1 : k1 <> []) by (rewrite E1; discriminate).
  assert (N2 : k2 <> []) by (rewrite E2; discriminate).
  destruct (xorBuffer_nth b k1 N1 Hb H1) as [L1 P1].
  destruct (xorBuffer_nth b k2 N2 Hb H2) as [L2 P2].
  destruct (xorBuffer_nth _ k2 N2 (xorBuffer_bytes b k1 Hb) H2) as [L12 P12].
  destruct (xorBuffer_nth _ k1 N1 (xorBuffer_bytes b k2 Hb) H1) as [L21 P21].
  apply nth_ext with (d := 0) (d' := 0); [congruence|].
  intros i Hi; rewrite L12, L1 in Hi.
  rewrite P12, P21, P1, P2 by congruence.
  rewrite !Z.lxor_assoc, (Z.lxor_comm (nth (i mod length k1) k1 0)); reflexivity.
Qed.

Lemma xorBuffer_comm_witness :
  xorBuffer (xorBuffer [1; 2; 3; 4; 5] [7; 9]) [200; 100; 50]
  = xorBuffer (xorBuffer [1; 2; 3; 4; 5] [200; 100; 50]) [7; 9].
Proof. apply xorBuffer_comm; repeat constructor; unfold is_u8; lia. Defined.

(** The key position runs on across the whole buffer: processing two pieces
    together gives the first piece processed with the key, followed by the
    second piece processed with the key rotated left by the length of the
    first piece (modulo the key length). *)
Theorem xorBuffer_app (b1 b2 k : Uint8Array) :
  k <> [] ->
  let r := (length b1 mod length k)%nat in
  xorBuffer (b1 ++ b2) k = xorBuffer b1 k ++ xorBuffer b2 (skipn r k ++ firstn r k).
Proof.
  intros Hk r.
  assert (Hn : length k <> 0%nat) by (destruct k; [congruence | discriminate]).
  assert (Hr : (r < length k)%nat) by (apply Nat.mod_upper_bound, Hn).
  assert (Hl : length (skipn r k ++ firstn r k) = length k)
    by (rewrite length_app, length_skipn, length_firstn; lia).
  unfold xorBuffer; rewrite Hl.
  destruct (Nat.eqb_spec (length k) 0) as [E|_]; [contradiction|].
  rewrite xor_loop_app; f_equal; apply xor_loop_ext; intros t.
  rewrite <- (nth_rotate k r t Hr); f_equal.
  unfold r; simpl Nat.add.
  rewrite Nat.Div0.add_mod_idemp_l; reflexivity.
Qed.

Lemma xorBuffer_app_witness :
  xorBuffer ([1; 2; 3] ++ [4; 5]) [10; 20]
  = xorBuffer [1; 2; 3] [10; 20] ++ xorBuffer [4; 5] [20; 10].
Proof. apply (xorBuffer_app [1; 2; 3] [4; 5] [10; 20]); discriminate. Defined.

(** Whoever knows a plaintext at least as long as the key recovers the key:
    processing the encrypted file with the plaintext as key yields the key
    in its first bytes. *)
Theorem xorBuffer_known_plaintext (b k : Uint8Array) :
  k <> [] -> bytes_ok b -> bytes_ok k -> (length k <= length b)%nat ->
  firstn (length k) (xorBuffer (xorBuffer b k) b) = k.
Proof.
  intros Hk Hb Hkb Hlen.
  assert (Nb : b <> []) by (destruct b, k; simpl in Hlen; congruence || lia).
  destruct (xorBuffer_nth b k Hk Hb Hkb) as [L1 P1].
  destruct (xorBuffer_nth _ b Nb (xorBuffer_bytes b k Hb) Hb) as [L2 P2].
  apply nth_ext with (d := 0) (d' := 0).
  { rewrite length_firstn, L2, L1; lia. }
  intros i Hi; rewrite length_firstn, L2, L1 in Hi.
  rewrite nth_firstn.
  replace (i <? length k)%nat with true by (symmetry; apply Nat.ltb_lt; lia).
  rewrite P2, P1 by lia.
  rewrite (Nat.mod_small i (length b)), (Nat.mod_small i (length k)) by lia.
  rewrite (Z.lxor_comm (nth i b 0) (nth i k 0)), Z.lxor_assoc, Z.lxor_nilpotent.
  apply Z.lxor_0_r.
Qed.

Lemma xorBuffer_known_plaintext_witness :
  firstn 2 (xorBuffer (xorBuffer [72; 101; 108; 108; 111] [42; 7])
              [72; 101; 108; 108; 111]) = [42; 7].
Proof.
  apply (xorBuffer_known_plaintext [72; 101; 108; 108; 111] [42; 7]);
    [discriminate | repeat constructor; unfold is_u8; lia .. | simpl; lia].
Defined.

(** ** Codecs *)

(** A base64 key is accepted with or without its [=] padding and with ASCII
    whitespace anywhere: any text whose other characters are the base64 of
    [b], padded or not, decodes to [b]. *)
Theorem base64ToUint8Array_forgiving (s : js_string) (b : Uint8Array) :
  bytes_ok b ->
  filter (fun c => negb (is_ascii_whitespace c)) s = forgiving_base64_encode b
  \/ filter (fun c => negb (is_ascii_whitespace c)) s = b64_core b ->
  base64ToUint8Array s = b.
Proof.
  intros Hb H; unfold base64ToUint8Array, atob.
  rewrite forgiving_base64_decode_filter.
  destruct H as [-> | ->];
    [rewrite forgiving_base64_decode_encode by exact Hb
    | rewrite forgiving_base64_decode_core by exact Hb];
    apply map_to_uint8_bytes, Hb.
Qed.

Lemma base64ToUint8Array_forgiving_witness :
  base64ToUint8Array (js "SGV sbG8") = [72; 101; 108; 108; 111].
Proof.
  apply base64ToUint8Array_forgiving;
    [repeat constructor; unfold is_u8; lia | right; reflexivity].
Defined.

(** A text key always gives well-formed UTF-8 bytes: lone surrogates are
    written as U+FFFD. *)
Theorem stringToUint8Array_valid (s : js_string) :
  js_string_ok s -> valid_utf8 (stringToUint8Array s).
Proof.
  intros Hs; pose proof (scalar_values_scalar s Hs) as Sc.
  unfold stringToUint8Array, text_encoder_encode.
  induction Sc as [|c cps Hc _ IH]; [constructor|].
  cbn [map concat]; apply utf8_encode_cp_valid; assumption.
Qed.

Lemma stringToUint8Array_valid_witness :
  valid_utf8 (stringToUint8Array [0xD800; 0x41]).
Proof. apply stringToUint8Array_valid; unfold js_string_ok; repeat constructor; lia. Defined.

(** Text to bytes to text gives back the string with each lone surrogate
    replaced by U+FFFD and a leading U+FEFF removed; a well-formed string
    not beginning with U+FEFF comes back unchanged. *)
Theorem text_string_roundtrip (s : js_string) :
  js_string_ok s ->
  uint8ArrayToString (stringToUint8Array s) = to_js_string (strip_bom (scalar_values s)).
Proof.
  intros Hs; unfold uint8ArrayToString, text_decoder_decode_fatal, stringToUint8Array,
    text_encoder_encode.
  rewrite utf8_decode_encode by (apply scalar_values_scalar, Hs); reflexivity.
Qed.

Lemma text_string_roundtrip_witness :
  uint8ArrayToString (stringToUint8Array [0xFEFF; 0x41; 0xDC00; 0xD83D; 0xDE00])
  = [0x41; 0xFFFD; 0xD83D; 0xDE00].
Proof.
  rewrite text_string_roundtrip by (unfold js_string_ok; repeat constructor; lia).
  reflexivity.
Defined.

(** The button that switches between hex and text, or a switch through
    base64, gives a text key back unchanged: a well-formed string that does
    not begin with U+FEFF and is not "[Binary Content]" survives switching
    to hex or base64 and back to text. *)
Theorem handleModeSwitch_text_roundtrip (cps : list Z) (m : KeyMode) :
  Forall is_scalar cps -> strip_bom cps = cps ->
  to_js_string cps <> binary_content -> m <> Text ->
  exists v', handleModeSwitch Text (to_js_string cps) m = Some (m, v')
             /\ handleModeSwitch m v' Text = Some (Text, to_js_string cps).
Proof.
  intros Sc Hbom Hbin Hm.
  set (kb := stringToUint8Array (to_js_string cps)).
  assert (Hkb : bytes_ok kb)
    by (unfold kb; rewrite stringToUint8Array_to_js_string by exact Sc;
        apply encode_scalars_bytes, Sc).
  assert (Hstr : uint8ArrayToString kb = to_js_string cps).
  { unfold kb, uint8ArrayToString, text_decoder_decode_fatal.
    rewrite stringToUint8Array_to_js_string, utf8_decode_encode by exact Sc.
    cbn [option_map]; rewrite Hbom; reflexivity. }
  assert (Back : forall v', m <> Text -> keyBytes m v' = kb ->
                 handleModeSwitch m v' Text = Some (Text, to_js_string cps)).
  { intros v' Hm' Hk'; unfold handleModeSwitch.
    destruct m; [| congruence |]; cbn [KeyMode_eqb]; rewrite Hk', Hstr;
      destruct (list_eq_dec Z.eq_dec (to_js_string cps) binary_content);
      solve [contradiction | reflexivity]. }
  destruct m; [| congruence |].
  - exists (uint8ArrayToHex kb); split; [reflexivity|].
    apply Back; [discriminate | apply hex_decode_encode, Hkb].
  - exists (forgiving_base64_encode kb); split.
    + unfold handleModeSwitch; cbn [KeyMode_eqb].
      change (keyBytes Text (to_js_string cps)) with kb.
      rewrite uint8ArrayToBase64_bytes by exact Hkb; reflexivity.
    + apply Back; [discriminate | apply base64_decode_encode, Hkb].
Qed.

Lemma handleModeSwitch_text_roundtrip_witness :
  exists v', handleModeSwitch Text (to_js_string [0x6B; 0xE9; 0x1F600]) Hex
             = Some (Hex, v')
             /\ handleModeSwitch Hex v' Text
                = Some (Text, to_js_string [0x6B; 0xE9; 0x1F600]).
Proof.
  apply handleModeSwitch_text_roundtrip;
    [ repeat constructor; unfold is_scalar; lia | reflexivity
    | vm_compute; discriminate | discriminate ].
Defined.
